(** * load-test-go: bounded-concurrency load generator (main.go)

    A shallow embedding of [main.go]: the [Result] and [Report] records,
    the reduction loop of [runLoadTest], the validation of [main], and an
    interleaving model of the goroutines of [runLoadTest] (workers, the
    closing goroutine and the collecting main goroutine) over the two
    channels and the wait group.

    Conventions.
    - Go's [int] and [time.Duration] are taken as signed 64-bit integers
      (the build targets 64-bit Linux); they are values of [Z] and every
      arithmetic operation of the source that can leave the range is
      written with [wrap64].
    - [error] is [option string]: [None] is Go's [nil].
    - [map[int]int] is a [gmap Z Z]; reading an absent key gives 0.
    - [make(chan T, n)] panics when [n] is negative or when the buffer of
      [n] elements is larger than the runtime allocates at all
      ([makechan: size out of range]); the bound is that of Go 1.24 on
      64-bit Linux.  Running out of memory below that bound is outside the
      model.
    - The internals of [sync.WaitGroup], [net/http] and [time] are outside
      the model: the wait group is a counter that panics when it becomes
      negative, [http.Get] always returns, either a response or an error,
      and the clock readings are inputs.
    - Goroutines interleave: a step is one channel operation, one
      wait-group operation or one call of [http.Get] by one goroutine, and
      any goroutine that is not blocked may take the next step. *)

From stdpp Require Import gmap list fin_maps strings.
From Stdlib Require Import ZArith Lia.

Local Open Scope Z_scope.

(** ** Machine integers *)

Definition max_int : Z := 2 ^ 63 - 1.
Definition min_int : Z := - 2 ^ 63.

(** Two's complement wrap-around of a 64-bit signed addition or
    subtraction. *)
Definition wrap64 (z : Z) : Z := (z + 2 ^ 63) mod 2 ^ 64 - 2 ^ 63.

Definition in_int (z : Z) : Prop := min_int <= z <= max_int.

(** Go's [/] on integers: truncation toward zero, a run-time panic when
    the divisor is zero ([None]), wrap-around for [min_int / -1]. *)
Definition go_div (a b : Z) : option Z :=
  if b =? 0 then None else Some (wrap64 (Z.quot a b)).

(** [time.Hour], in nanoseconds. *)
Definition Hour : Z := 3600000000000.

(** [http.StatusOK]. *)
Definition StatusOK : Z := 200.

(** ** Data model *)

Record Result := mkResult {
  StatusCode : Z;
  Duration : Z;
  Error : option string
}.

Record Report := mkReport {
  TotalRequests : Z;
  TotalDuration : Z;
  StatusCodes : gmap Z Z;
  SuccessfulRequests : Z;
  FailedRequests : Z;
  AverageTime : Z;
  MinTime : Z;
  MaxTime : Z
}.

Definition is_error (r : Result) : bool :=
  match Error r with Some _ => true | None => false end.

(** ** The request worker (lines 79-91)

    [http.Get] returns a response with its status code and a nil error, or
    an error (the response is then not looked at). *)
Inductive http_reply :=
| Responded (status : Z)
| Failed (err : string).

(** The [Result] a worker builds from the reply and the measured
    duration: [StatusCode] keeps its zero value when [err != nil]. *)
Definition worker_result (reply : http_reply) (duration : Z) : Result :=
  let result := mkResult 0 duration
                  (match reply with Responded _ => None | Failed e => Some e end) in
  match reply with
  | Responded status => mkResult status (Duration result) (Error result)
  | Failed _ => result
  end.

(** ** The reduction (lines 102-134) *)

(** [report := Report{TotalRequests: totalRequests, StatusCodes: make(..),
    MinTime: time.Hour}]: every other field has its zero value. *)
Definition init_report (totalRequests : Z) : Report :=
  mkReport totalRequests 0 ∅ 0 0 0 Hour 0.

(** [m[k]++] on a Go map. *)
Definition map_incr (k : Z) (m : gmap Z Z) : gmap Z Z :=
  <[k := wrap64 (default 0 (m !! k) + 1)]> m.

(** One iteration of [for result := range resultChan]; the accumulator is
    the report and the local [totalTime]. *)
Definition range_body (acc : Report * Z) (result : Result) : Report * Z :=
  let '(report, totalTime) := acc in
  match Error result with
  | Some _ =>
      (mkReport (TotalRequests report) (TotalDuration report)
         (StatusCodes report) (SuccessfulRequests report)
         (wrap64 (FailedRequests report + 1))
         (AverageTime report) (MinTime report) (MaxTime report),
       totalTime)
  | None =>
      let codes := map_incr (StatusCode result) (StatusCodes report) in
      let totalTime' := wrap64 (totalTime + Duration result) in
      let succ := if StatusCode result =? StatusOK
                  then wrap64 (SuccessfulRequests report + 1)
                  else SuccessfulRequests report in
      let mn := if Duration result <? MinTime report
                then Duration result else MinTime report in
      let mx := if Duration result >? MaxTime report
                then Duration result else MaxTime report in
      (mkReport (TotalRequests report) (TotalDuration report)
         codes succ (FailedRequests report) (AverageTime report) mn mx,
       totalTime')
  end.

(** The whole loop over the outcomes in the order they are received. *)
Definition collect (totalRequests : Z) (results : list Result) : Report * Z :=
  fold_left range_body results (init_report totalRequests, 0).

(** Lines 131-134: [elapsed] is the reading of [time.Since(startTime)].
    [None] is the run-time panic of an integer division by zero. *)
Definition finalize (totalRequests elapsed : Z) (acc : Report * Z) : option Report :=
  let '(report, totalTime) := acc in
  let report := mkReport (TotalRequests report) elapsed (StatusCodes report)
                  (SuccessfulRequests report) (FailedRequests report)
                  (AverageTime report) (MinTime report) (MaxTime report) in
  if wrap64 (totalRequests - FailedRequests report) >? 0 then
    match go_div totalTime (wrap64 (totalRequests - FailedRequests report)) with
    | Some avg =>
        Some (mkReport (TotalRequests report) (TotalDuration report)
                (StatusCodes report) (SuccessfulRequests report)
                (FailedRequests report) avg (MinTime report) (MaxTime report))
    | None => None
    end
  else Some report.

(** The sequential part of [runLoadTest] on the outcomes received. *)
Definition aggregate (totalRequests elapsed : Z) (results : list Result) : option Report :=
  finalize totalRequests elapsed (collect totalRequests results).

(** ** The goroutines of [runLoadTest] (lines 62-100)

    Each goroutine is a program counter; the scheduler picks which one
    moves next.  Channel operations and wait-group operations are the
    atomic steps. *)

(** A worker, lines 73-94.  [defer wg.Done()] and
    [defer func() { <-semaphore }()] run in reverse order when the body
    ends, after the send on [resultChan]. *)
Inductive worker_pc :=
| WAcquire                      (* at [semaphore <- struct{}{}] *)
| WGet                          (* slot held, at [http.Get(url)] *)
| WSend (result : Result)       (* at [resultChan <- result] *)
| WRelease (result : Result)    (* deferred [<-semaphore] *)
| WDone (result : Result)       (* deferred [wg.Done()] *)
| WExit (result : Result).      (* goroutine ended *)

(** The goroutine of lines 97-100. *)
Inductive closer_pc :=
| CWait                         (* at [wg.Wait()] *)
| CClose                        (* at [close(resultChan)] *)
| CExit.

(** The goroutine that runs [runLoadTest]. *)
Inductive main_pc :=
| MFor (i : Z)                              (* loop test [i < totalRequests] *)
| MGo (i : Z)                               (* after [wg.Add(1)], at [go func] *)
| MGoCloser                                 (* at [go func() { wg.Wait() ... }] *)
| MRange (report : Report) (totalTime : Z)  (* at [range resultChan] *)
| MReturned (report : Report).

Record state := mkState {
  mainG : main_pc;
  workers : list worker_pc;       (* spawned workers, in spawn order *)
  closer : option closer_pc;      (* [None]: not spawned yet *)
  wg : Z;                         (* counter of the wait group *)
  semaphore : Z;                  (* number of tokens buffered in [semaphore] *)
  resultChan : list Result;       (* buffer of [resultChan], oldest first *)
  closed : bool;                  (* [resultChan] has been closed *)
  received : list Result          (* history: values the range loop has taken *)
}.

Definition with_main (m : main_pc) (s : state) : state :=
  mkState m (workers s) (closer s) (wg s) (semaphore s) (resultChan s)
    (closed s) (received s).
Definition with_workers (ws : list worker_pc) (s : state) : state :=
  mkState (mainG s) ws (closer s) (wg s) (semaphore s) (resultChan s)
    (closed s) (received s).
Definition with_closer (c : option closer_pc) (s : state) : state :=
  mkState (mainG s) (workers s) c (wg s) (semaphore s) (resultChan s)
    (closed s) (received s).
Definition with_wg (n : Z) (s : state) : state :=
  mkState (mainG s) (workers s) (closer s) n (semaphore s) (resultChan s)
    (closed s) (received s).
Definition with_semaphore (n : Z) (s : state) : state :=
  mkState (mainG s) (workers s) (closer s) (wg s) n (resultChan s)
    (closed s) (received s).
Definition with_resultChan (q : list Result) (s : state) : state :=
  mkState (mainG s) (workers s) (closer s) (wg s) (semaphore s) q
    (closed s) (received s).
Definition with_closed (b : bool) (s : state) : state :=
  mkState (mainG s) (workers s) (closer s) (wg s) (semaphore s) (resultChan s)
    b (received s).
Definition with_received (l : list Result) (s : state) : state :=
  mkState (mainG s) (workers s) (closer s) (wg s) (semaphore s) (resultChan s)
    (closed s) l.

(** What the scheduler and the environment choose at a step: the goroutine
    that moves, and for it the reading of the clock or the reply of the
    server (looked at only by the step that uses it). *)
Inductive action :=
| ActMain (elapsed : Z)
| ActWorker (i : nat) (reply : http_reply) (duration : Z)
| ActCloser.

Inductive step_result :=
| Next (s : state)
| Blocked                       (* the goroutine cannot move now, or has ended *)
| Panic.

(** *** Creating the channels

    The check of the runtime's [makechan]: the buffer takes
    [elem_bytes * size] bytes and must fit, with the channel header of
    [hchan_bytes] bytes, below [max_alloc].  A [Result] is an [int], a
    [time.Duration] and an interface value: 32 bytes; [struct{}] takes
    none. *)
Definition max_alloc : Z := 2 ^ 48.
Definition hchan_bytes : Z := 104.
Definition result_bytes : Z := 32.

Definition makechan_panics (elem_bytes size : Z) : bool :=
  (size <? 0) || (elem_bytes * size >? max_alloc - hchan_bytes).

Section Coordinator.
Variables totalRequests concurrency : Z.

(** The state after lines 63-69, when both channels could be made. *)
Definition init_state : state :=
  mkState (MFor 0) [] None 0 0 [] false [].

(** Lines 63-69: [make(chan Result, totalRequests)], then
    [make(chan struct{}, concurrency)]. *)
Definition start : step_result :=
  if makechan_panics result_bytes totalRequests then Panic
  else if makechan_panics 0 concurrency then Panic
  else Next init_state.

(** One step of the goroutine running [runLoadTest]: the spawning loop
    (lines 71-95), the spawning of the closer (97-100) with the creation of
    the report (102-108), then the range loop (110-129), which takes the
    oldest buffered result, ends when the channel is closed and empty and
    blocks otherwise; the report is then finalised (131-136). *)
Definition main_step (elapsed : Z) (s : state) : step_result :=
  match mainG s with
  | MFor i =>
      (* [i++] cannot overflow: it is taken only when [i < totalRequests] *)
      if i <? totalRequests
      then Next (with_main (MGo i) (with_wg (wg s + 1) s))
      else Next (with_main MGoCloser s)
  | MGo i =>
      Next (with_main (MFor (i + 1)) (with_workers (workers s ++ [WAcquire]) s))
  | MGoCloser =>
      Next (with_main (MRange (init_report totalRequests) 0)
              (with_closer (Some CWait) s))
  | MRange report totalTime =>
      match resultChan s with
      | result :: rest =>
          let '(report', totalTime') := range_body (report, totalTime) result in
          Next (with_main (MRange report' totalTime')
                  (with_received (received s ++ [result])
                     (with_resultChan rest s)))
      | [] =>
          if closed s then
            match finalize totalRequests elapsed (report, totalTime) with
            | Some final => Next (with_main (MReturned final) s)
            | None => Panic
            end
          else Blocked
      end
  | MReturned _ => Blocked
  end.

(** One step of worker [i].  A send on a buffered channel blocks while the
    buffer is full and panics when the channel is closed; a receive blocks
    while the buffer is empty; [wg.Done()] panics on a negative counter. *)
Definition worker_step (i : nat) (reply : http_reply) (duration : Z)
    (s : state) : step_result :=
  match workers s !! i with
  | None => Blocked
  | Some WAcquire =>
      if semaphore s <? concurrency
      then Next (with_workers (<[i := WGet]> (workers s))
                   (with_semaphore (semaphore s + 1) s))
      else Blocked
  | Some WGet =>
      Next (with_workers
              (<[i := WSend (worker_result reply duration)]> (workers s)) s)
  | Some (WSend result) =>
      if closed s then Panic
      else if Z.of_nat (length (resultChan s)) <? totalRequests
      then Next (with_workers (<[i := WRelease result]> (workers s))
                   (with_resultChan (resultChan s ++ [result]) s))
      else Blocked
  | Some (WRelease result) =>
      if 0 <? semaphore s
      then Next (with_workers (<[i := WDone result]> (workers s))
                   (with_semaphore (semaphore s - 1) s))
      else Blocked
  | Some (WDone result) =>
      if wg s - 1 <? 0 then Panic
      else Next (with_workers (<[i := WExit result]> (workers s))
                   (with_wg (wg s - 1) s))
  | Some (WExit _) => Blocked
  end.

(** One step of the closer: [wg.Wait()] blocks until the counter is zero;
    closing a closed channel panics. *)
Definition closer_step (s : state) : step_result :=
  match closer s with
  | None => Blocked
  | Some CWait =>
      if wg s =? 0 then Next (with_closer (Some CClose) s) else Blocked
  | Some CClose =>
      if closed s then Panic
      else Next (with_closer (Some CExit) (with_closed true s))
  | Some CExit => Blocked
  end.

Definition step_fn (a : action) (s : state) : step_result :=
  match a with
  | ActMain elapsed => main_step elapsed s
  | ActWorker i reply duration => worker_step i reply duration s
  | ActCloser => closer_step s
  end.

Definition step (s s' : state) : Prop := ∃ a, step_fn a s = Next s'.

(** Running a schedule from a state; [None] when a chosen goroutine is
    blocked or panics. *)
Fixpoint run (sched : list action) (s : state) : option state :=
  match sched with
  | [] => Some s
  | a :: rest =>
      match step_fn a s with
      | Next s' => run rest s'
      | _ => None
      end
  end.

Definition reachable (s : state) : Prop := rtc step init_state s.

Definition terminal (s : state) : Prop := ∀ a s', step_fn a s ≠ Next s'.

End Coordinator.

(** ** [main] (lines 30-60) and the exit code of the process *)

Inductive process :=
| Exited (code : Z)
| Running (totalRequests concurrency : Z) (s : state).

(** [main] on the parsed flags, up to the call of [runLoadTest]:
    [os.Exit(1)] on each failed check.  An unrecovered panic ends a Go
    program with exit code 2. *)
Definition main (url : string) (requests concurrency : Z) : process :=
  if String.eqb url EmptyString then Exited 1
  else if requests <=? 0 then Exited 1
  else if (concurrency <=? 0) || (concurrency >? requests) then Exited 1
  else match start requests concurrency with
       | Next s => Running requests concurrency s
       | _ => Exited 2
       end.

(** The process after [main] has started the run: goroutines move, and
    once [runLoadTest] has returned [main] prints the report (formatting
    only; the division there is on floats and cannot panic) and returns,
    which ends the program with exit code 0. *)
Definition process_step (a : action) (p : process) : option process :=
  match p with
  | Exited _ => None
  | Running n c s =>
      match mainG s with
      | MReturned _ => Some (Exited 0)
      | _ => match step_fn n c a s with
             | Next s' => Some (Running n c s')
             | Panic => Some (Exited 2)
             | Blocked => None
             end
      end
  end.

Definition process_steps (p p' : process) : Prop := ∃ a, process_step a p = Some p'.

(** The process under a schedule; [None] when the goroutine chosen cannot
    move. *)
Fixpoint process_run (sched : list action) (p : process) : option process :=
  match sched with
  | [] => Some p
  | a :: rest =>
      match process_step a p with
      | Some p' => process_run rest p'
      | None => None
      end
  end.

(** Number of workers that have been started in a process state. *)
Definition dispatched (p : process) : nat :=
  match p with Exited _ => 0%nat | Running _ _ s => length (workers s) end.

(** ** Quantities the statements are written with *)

(** Number of outcomes that satisfy a test. *)
Fixpoint count (p : Result → bool) (rs : list Result) : Z :=
  match rs with
  | [] => 0
  | r :: rest => (if p r then 1 else 0) + count p rest
  end.

(** The outcomes without an error, in order. *)
Fixpoint completed (rs : list Result) : list Result :=
  match rs with
  | [] => []
  | r :: rest => if is_error r then completed rest else r :: completed rest
  end.

Definition has_code (c : Z) (r : Result) : bool :=
  negb (is_error r) && (StatusCode r =? c).

(** An outcome without error whose status code is not 200. *)
Definition other_code (r : Result) : bool :=
  negb (is_error r) && negb (StatusCode r =? StatusOK).

Definition sum_durations (rs : list Result) : Z :=
  foldr (λ r acc, Duration r + acc) 0 rs.

(** Smallest and largest duration of a list of outcomes, if any. *)
Fixpoint smallest (rs : list Result) : option Z :=
  match rs with
  | [] => None
  | r :: rest =>
      match smallest rest with
      | None => Some (Duration r)
      | Some m => Some (Z.min (Duration r) m)
      end
  end.

Fixpoint largest (rs : list Result) : option Z :=
  match rs with
  | [] => None
  | r :: rest =>
      match largest rest with
      | None => Some (Duration r)
      | Some m => Some (Z.max (Duration r) m)
      end
  end.

(** Sum of the entries of the status-code table for the codes other
    than 200. *)
Definition sum_other_codes (m : gmap Z Z) : Z :=
  map_fold (λ code n acc, if code =? StatusOK then acc else n + acc) 0 m.

Definition with_failed (n : Z) (acc : Report * Z) : Report * Z :=
  (mkReport (TotalRequests acc.1) (TotalDuration acc.1) (StatusCodes acc.1)
     (SuccessfulRequests acc.1) n (AverageTime acc.1) (MinTime acc.1)
     (MaxTime acc.1), acc.2).

(** ** Quantities of a state of the goroutines *)

Definition holds_slot (w : worker_pc) : bool :=
  match w with WGet | WSend _ | WRelease _ => true | _ => false end.

Definition running (w : worker_pc) : bool :=
  match w with WExit _ => false | _ => true end.

(** The outcome a worker has built, once it has one. *)
Definition outcome_of (w : worker_pc) : list Result :=
  match w with
  | WAcquire | WGet => []
  | WSend r | WRelease r | WDone r | WExit r => [r]
  end.

(** The outcome a worker has put on [resultChan]. *)
Definition sent_of (w : worker_pc) : list Result :=
  match w with
  | WRelease r | WDone r | WExit r => [r]
  | _ => []
  end.

Definition tally (f : worker_pc → bool) (ws : list worker_pc) : Z :=
  foldr (λ w acc, (if f w then 1 else 0) + acc) 0 ws.

Definition holders (s : state) : Z := tally holds_slot (workers s).
Definition unfinished (s : state) : Z := tally running (workers s).
Definition outcomes (s : state) : list Result := workers s ≫= outcome_of.
Definition sent (s : state) : list Result := workers s ≫= sent_of.

(** Steps a goroutine still has to take. *)
Definition worker_fuel (w : worker_pc) : Z :=
  match w with
  | WAcquire => 5 | WGet => 4 | WSend _ => 3
  | WRelease _ => 2 | WDone _ => 1 | WExit _ => 0
  end.

Definition closer_fuel (c : option closer_pc) : Z :=
  match c with
  | None | Some CWait => 2
  | Some CClose => 1
  | Some CExit => 0
  end.

Definition main_fuel (totalRequests : Z) (s : state) : Z :=
  match mainG s with
  | MFor i => 7 * (totalRequests - i) + totalRequests + 3
  | MGo i => 7 * (totalRequests - i) + totalRequests + 2
  | MGoCloser => totalRequests + 2
  | MRange _ _ => totalRequests - Z.of_nat (length (received s)) + 1
  | MReturned _ => 0
  end.

Definition fuel (totalRequests : Z) (s : state) : Z :=
  main_fuel totalRequests s
  + foldr (λ w acc, worker_fuel w + acc) 0 (workers s)
  + closer_fuel (closer s).

(** What holds of the main goroutine at each of its program points. *)
Definition main_inv (totalRequests : Z) (s : state) : Prop :=
  match mainG s with
  | MFor i =>
      0 <= i <= totalRequests ∧ Z.of_nat (length (workers s)) = i
      ∧ closer s = None ∧ received s = []
  | MGo i =>
      0 <= i < totalRequests ∧ Z.of_nat (length (workers s)) = i
      ∧ closer s = None ∧ received s = []
  | MGoCloser =>
      Z.of_nat (length (workers s)) = totalRequests
      ∧ closer s = None ∧ received s = []
  | MRange report totalTime =>
      Z.of_nat (length (workers s)) = totalRequests
      ∧ closer s ≠ None
      ∧ (report, totalTime) = collect totalRequests (received s)
  | MReturned report =>
      Z.of_nat (length (workers s)) = totalRequests
      ∧ closer s = Some CExit ∧ resultChan s = []
      ∧ ∃ elapsed, aggregate totalRequests elapsed (received s) = Some report
  end.

Definition closer_inv (s : state) : Prop :=
  match closer s with
  | None | Some CWait => closed s = false
  | Some CClose => closed s = false ∧ wg s = 0
  | Some CExit => closed s = true ∧ wg s = 0
  end.

(** The invariant of the run. *)
Record inv (totalRequests concurrency : Z) (s : state) : Prop := mkInv {
  inv_sem : semaphore s = holders s;
  inv_cap : semaphore s <= concurrency;
  inv_wg : wg s = unfinished s
                  + (match mainG s with MGo _ => 1 | _ => 0 end);
  inv_chan : sent s ≡ₚ received s ++ resultChan s;
  inv_main : main_inv totalRequests s;
  inv_closer : closer_inv s
}.

(** Iterating [process_steps]. *)
Definition process_reaches (p p' : process) : Prop := rtc process_steps p p'.

(** ** A run of two requests under a concurrency of one

    A schedule for [totalRequests = 2], [concurrency = 1]: the first worker
    takes the slot while the second is being spawned, gets [200] after 50ns
    and releases; the second then gets an error after 7ns. *)
Definition demo_admission : list action :=
  [ActMain 0; ActMain 0;                         (* spawn worker 0 *)
   ActWorker 0 (Responded 0) 0;                  (* worker 0 takes the slot *)
   ActMain 0; ActMain 0].                        (* spawn worker 1 *)

Definition demo_rest : list action :=
  [ActWorker 0 (Responded 200) 50;               (* worker 0: http.Get *)
   ActMain 0; ActMain 0;                         (* leave the loop, spawn the closer *)
   ActWorker 0 (Responded 0) 0;                  (* worker 0 sends *)
   ActMain 0;                                    (* main receives *)
   ActWorker 0 (Responded 0) 0;                  (* worker 0 releases *)
   ActWorker 1 (Responded 0) 0;                  (* worker 1 takes the slot *)
   ActWorker 0 (Responded 0) 0;                  (* worker 0: wg.Done *)
   ActWorker 1 (Failed "connection refused") 7;  (* worker 1: http.Get *)
   ActWorker 1 (Responded 0) 0;                  (* worker 1 sends *)
   ActWorker 1 (Responded 0) 0;                  (* worker 1 releases *)
   ActWorker 1 (Responded 0) 0;                  (* worker 1: wg.Done *)
   ActCloser;                                    (* wg.Wait returns *)
   ActMain 0;                                    (* main receives *)
   ActCloser;                                    (* close(resultChan) *)
   ActMain 1000].                                (* the loop ends, the report is returned *)

Definition demo_mid : state :=
  default init_state (run 2 1 demo_admission init_state).

Definition demo_final : state :=
  default init_state (run 2 1 (demo_admission ++ demo_rest) init_state).

(** ** Flags (lines 31-35)

    What [flag.Parse] leaves in the three flags: a flag that is not given
    keeps the default of its declaration. *)
Record flags := mkFlags {
  flag_url : option string;
  flag_requests : option Z;
  flag_concurrency : option Z
}.

Definition main_flags (f : flags) : process :=
  main (default EmptyString (flag_url f))
       (default 100 (flag_requests f))
       (default 10 (flag_concurrency f)).

(** ** The status lines of [printReport] (lines 150-153)

    The loop prints one line per entry of [StatusCodes], in an order the
    language leaves open: the rows printed are a permutation of the
    entries.  [rows_total] adds up the counts printed. *)
Definition rows_total (rows : list (Z * Z)) : Z :=
  foldr (λ row acc, row.2 + acc) 0 rows.

(** ** More states of the runs above *)

(** Worker 0 has its result and is about to send it. *)
Definition demo_send : state :=
  default init_state
    (run 2 1 (demo_admission ++ [ActWorker 0 (Responded 200) 50]) init_state).

(** [totalRequests = 2], [concurrency = 0]: both workers and the closer
    are spawned, the main goroutine is at the range loop. *)
Definition demo_stuck : state :=
  default init_state
    (run 2 0 [ActMain 0; ActMain 0; ActMain 0; ActMain 0; ActMain 0; ActMain 0]
       init_state).

(** ** Tactics for the invariant *)

Ltac open_inv H :=
  destruct H as [Hsem Hcap Hwg Hchan Hmain Hcl];
  unfold holders, unfinished, sent, main_inv, closer_inv in *; simpl in *.

Ltac close_inv :=
  constructor; unfold holders, unfinished, sent, main_inv, closer_inv; simpl.

(** * Properties *)

(** ** Machine arithmetic *)

Lemma wrap64_id z : in_int z → wrap64 z = z.
Proof.
  unfold in_int, min_int, max_int, wrap64. intros Hz.
  rewrite Z.mod_small; lia.
Qed.

Lemma wrap64_range z : in_int (wrap64 z).
Proof.
  unfold in_int, min_int, max_int, wrap64.
  pose proof (Z.mod_pos_bound (z + 2 ^ 63) (2 ^ 64)). lia.
Qed.

Lemma wrap64_add_l a b : wrap64 (wrap64 a + b) = wrap64 (a + b).
Proof.
  unfold wrap64.
  replace ((a + 2 ^ 63) mod 2 ^ 64 - 2 ^ 63 + b + 2 ^ 63)
    with ((a + 2 ^ 63) mod 2 ^ 64 + b) by lia.
  rewrite Zplus_mod_idemp_l. do 2 f_equal. lia.
Qed.

Lemma wrap64_quot a b : in_int a → 0 < b → wrap64 (Z.quot a b) = Z.quot a b.
Proof.
  intros Ha Hb. apply wrap64_id.
  unfold in_int, min_int, max_int in *.
  destruct (Z.le_gt_cases 0 a) as [Hp|Hn].
  - pose proof (Z.quot_pos a b Hp Hb).
    assert (a ÷ b <= a) by (apply Z.quot_le_upper_bound; nia). lia.
  - assert (Hq : (- a) ÷ b <= - a) by (apply Z.quot_le_upper_bound; nia).
    pose proof (Z.quot_pos (- a) b).
    rewrite Z.quot_opp_l in * by lia. lia.
Qed.

(** ** The reduction loop *)

Lemma collect_snoc n rs r :
  collect n (rs ++ [r]) = range_body (collect n rs) r.
Proof. unfold collect. by rewrite fold_left_app. Qed.

Lemma count_app p rs1 rs2 : count p (rs1 ++ rs2) = count p rs1 + count p rs2.
Proof. induction rs1 as [|r rs1 IH]; simpl; [done | rewrite IH; lia]. Qed.

Lemma count_bounds p rs : 0 <= count p rs <= Z.of_nat (length rs).
Proof. induction rs as [|r rs IH]; simpl; [lia | destruct (p r); lia]. Qed.

Lemma completed_app rs1 rs2 :
  completed (rs1 ++ rs2) = completed rs1 ++ completed rs2.
Proof.
  induction rs1 as [|r rs1 IH]; simpl; [done|].
  destruct (is_error r); simpl; by rewrite IH.
Qed.

Lemma completed_length rs :
  Z.of_nat (length (completed rs)) = count (λ r, negb (is_error r)) rs.
Proof.
  induction rs as [|r rs IH]; simpl; [done|].
  destruct (is_error r); simpl; lia.
Qed.

Lemma count_split_error rs :
  count is_error rs + count (λ r, negb (is_error r)) rs = Z.of_nat (length rs).
Proof.
  induction rs as [|r rs IH]; simpl; [done|].
  destruct (is_error r); simpl; lia.
Qed.

Lemma completed_no_error rs r : r ∈ completed rs → is_error r = false.
Proof.
  induction rs as [|r' rs IH]; simpl; [by intros ?%elem_of_nil|].
  destruct (is_error r') eqn:E; [done|].
  intros [->|?]%elem_of_cons; auto.
Qed.

Lemma sum_durations_app rs1 rs2 :
  sum_durations (rs1 ++ rs2) = sum_durations rs1 + sum_durations rs2.
Proof.
  unfold sum_durations.
  induction rs1 as [|r rs1 IH]; simpl; [done | rewrite IH; lia].
Qed.

Lemma smallest_snoc rs r :
  smallest (rs ++ [r])
  = Some (match smallest rs with
          | None => Duration r
          | Some m => Z.min m (Duration r)
          end).
Proof.
  induction rs as [|r' rs IH]; simpl; [done|].
  rewrite IH. destruct (smallest rs); f_equal; lia.
Qed.

Lemma largest_snoc rs r :
  largest (rs ++ [r])
  = Some (match largest rs with
          | None => Duration r
          | Some m => Z.max m (Duration r)
          end).
Proof.
  induction rs as [|r' rs IH]; simpl; [done|].
  rewrite IH. destruct (largest rs); f_equal; lia.
Qed.

Lemma is_error_true r : is_error r = true → ∃ e, Error r = Some e.
Proof. unfold is_error. destruct (Error r); [eauto | done]. Qed.

Lemma is_error_false r : is_error r = false → Error r = None.
Proof. unfold is_error. by destruct (Error r). Qed.

Lemma has_code_error c r : is_error r = true → has_code c r = false.
Proof. unfold has_code. by intros ->. Qed.

Lemma has_code_completed c r :
  is_error r = false → has_code c r = (StatusCode r =? c).
Proof. unfold has_code. by intros ->. Qed.

(** Closed form of every accumulator of the loop, for any list. *)
Lemma collect_closed_form n rs :
  let '(report, totalTime) := collect n rs in
  TotalRequests report = n
  ∧ TotalDuration report = 0
  ∧ AverageTime report = 0
  ∧ FailedRequests report = wrap64 (count is_error rs)
  ∧ SuccessfulRequests report = wrap64 (count (has_code StatusOK) rs)
  ∧ (∀ c, StatusCodes report !! c
          = if count (has_code c) rs =? 0 then None
            else Some (wrap64 (count (has_code c) rs)))
  ∧ MinTime report = Z.min Hour (default Hour (smallest (completed rs)))
  ∧ MaxTime report = Z.max 0 (default 0 (largest (completed rs)))
  ∧ totalTime = wrap64 (sum_durations (completed rs)).
Proof.
  induction rs as [|r rs IH] using rev_ind.
  { cbn. repeat split; try done. }
  rewrite collect_snoc. destruct (collect n rs) as [rep tt].
  destruct IH as (H1 & H2 & H3 & H4 & H5 & H6 & H7 & H8 & H9).
  unfold range_body. rewrite !completed_app, !count_app. simpl.
  destruct (is_error r) eqn:Er.
  - apply is_error_true in Er as He. destruct He as [e He]. rewrite He. simpl.
    rewrite !app_nil_r, has_code_error by done.
    repeat split; try done.
    + rewrite H4, wrap64_add_l. f_equal.
    + rewrite H5. f_equal. lia.
    + intros c. rewrite count_app. simpl.
      rewrite H6, has_code_error by done.
      by rewrite !Z.add_0_r.
  - rewrite (is_error_false _ Er). simpl.
    rewrite smallest_snoc, largest_snoc, sum_durations_app. simpl.
    repeat split; try done.
    + rewrite H4. f_equal. lia.
    + rewrite has_code_completed by done.
      destruct (StatusCode r =? StatusOK).
      * rewrite H5, wrap64_add_l. f_equal.
      * rewrite H5. f_equal. lia.
    + intros c. unfold map_incr.
      pose proof (count_bounds (has_code c) rs) as Hb.
      rewrite count_app. simpl. rewrite has_code_completed by done.
      destruct (Z.eqb_spec (StatusCode r) c) as [->|Hne].
      * rewrite lookup_insert_eq. rewrite H6.
        destruct (Z.eqb_spec (count (has_code c) rs + (1 + 0)) 0); [lia|].
        f_equal.
        destruct (Z.eqb_spec (count (has_code c) rs) 0) as [->|_]; simpl.
        -- done.
        -- rewrite wrap64_add_l. f_equal.
      * rewrite lookup_insert_ne by done. rewrite H6.
        by rewrite !Z.add_0_r.
    + rewrite H7.
      destruct (smallest (completed rs)) as [m|]; simpl.
      * destruct (Z.ltb_spec (Duration r) (Z.min Hour m)); lia.
      * destruct (Z.ltb_spec (Duration r) (Z.min Hour Hour)); lia.
    + rewrite H8.
      destruct (largest (completed rs)) as [m|]; simpl.
      * destruct (Z.gtb_spec (Duration r) (Z.max 0 m)); lia.
      * destruct (Z.gtb_spec (Duration r) (Z.max 0 0)); lia.
    + rewrite H9, wrap64_add_l. f_equal. lia.
Qed.

Lemma count_in_int p rs :
  Z.of_nat (length rs) <= max_int → wrap64 (count p rs) = count p rs.
Proof.
  intros Hlen. apply wrap64_id. pose proof (count_bounds p rs).
  unfold in_int, min_int, max_int in *. lia.
Qed.

(** An outcome with an error changes the count of failures and nothing
    else, so the loop could as well skip it. *)
Lemma collect_skips_errors n rs :
  collect n rs
  = with_failed (wrap64 (count is_error rs)) (collect n (completed rs)).
Proof.
  induction rs as [|r rs IH] using rev_ind; [done|].
  rewrite collect_snoc, completed_app, count_app, IH. simpl.
  destruct (is_error r) eqn:Er.
  - rewrite app_nil_r. apply is_error_true in Er as [e He].
    unfold range_body, with_failed. simpl. rewrite He. simpl.
    by rewrite wrap64_add_l, Z.add_0_r.
  - rewrite collect_snoc. destruct (collect n (completed rs)) as [rep tt].
    unfold range_body, with_failed. simpl.
    rewrite (is_error_false _ Er). simpl. by rewrite !Z.add_0_r.
Qed.

(** C3.  For a list of outcomes of a length an [int] can hold, the loop
    leaves in [FailedRequests] the number of outcomes with an error, which
    change no other accumulator; in [StatusCodes] an entry per status code
    seen on an outcome without error, holding the number of such outcomes;
    in [SuccessfulRequests] the number of outcomes without error whose
    status code is 200; in [MinTime], [MaxTime] and [totalTime] the fold of
    the durations of the outcomes without error into the running minimum
    (from one hour), maximum (from zero) and 64-bit sum. *)
Theorem collect_reduces_outcomes (n : Z) (rs : list Result) :
  Z.of_nat (length rs) <= max_int →
  let report := (collect n rs).1 in
  let totalTime := (collect n rs).2 in
  FailedRequests report = count is_error rs
  ∧ collect n rs = with_failed (count is_error rs) (collect n (completed rs))
  ∧ (∀ c, StatusCodes report !! c
          = if count (has_code c) rs =? 0 then None
            else Some (count (has_code c) rs))
  ∧ SuccessfulRequests report = count (has_code StatusOK) rs
  ∧ MinTime report = Z.min Hour (default Hour (smallest (completed rs)))
  ∧ MaxTime report = Z.max 0 (default 0 (largest (completed rs)))
  ∧ totalTime = wrap64 (sum_durations (completed rs)).
Proof.
  intros Hlen. simpl.
  pose proof (collect_closed_form n rs) as Hcf.
  pose proof (collect_skips_errors n rs) as Hskip.
  destruct (collect n rs) as [rep tt].
  destruct Hcf as (_ & _ & _ & H4 & H5 & H6 & H7 & H8 & H9). simpl.
  rewrite count_in_int in H4, H5, Hskip by done.
  repeat split; try done.
  intros c. rewrite H6. by rewrite count_in_int.
Qed.

Lemma collect_reduces_outcomes_witness :
  let rs := [mkResult 200 5 None; mkResult 0 9 (Some "refused");
             mkResult 500 7 None; mkResult 200 3 None] in
  let report := (collect 4 rs).1 in
  FailedRequests report = 1
  ∧ StatusCodes report !! 200 = Some 2
  ∧ StatusCodes report !! 500 = Some 1
  ∧ StatusCodes report !! 0 = None
  ∧ SuccessfulRequests report = 2
  ∧ MinTime report = 3 ∧ MaxTime report = 7
  ∧ (collect 4 rs).2 = 15.
Proof.
  intros rs report.
  assert (Hlen : Z.of_nat (length rs) <= max_int) by (vm_compute; discriminate).
  destruct (collect_reduces_outcomes 4 rs Hlen)
    as (H1 & _ & H3 & H4 & H5 & H6 & H7).
  split; [exact H1|].
  split; [exact (H3 200)|].
  split; [exact (H3 500)|].
  split; [exact (H3 0)|].
  split; [exact H4|].
  split; [exact H5|].
  split; [exact H6|exact H7].
Defined.

(** ** Finalisation *)

(** The division is guarded, so [finalize] always returns a report. *)
Lemma finalize_fields n elapsed rep tt :
  finalize n elapsed (rep, tt)
  = Some (mkReport (TotalRequests rep) elapsed (StatusCodes rep)
            (SuccessfulRequests rep) (FailedRequests rep)
            (if wrap64 (n - FailedRequests rep) >? 0
             then wrap64 (Z.quot tt (wrap64 (n - FailedRequests rep)))
             else AverageTime rep)
            (MinTime rep) (MaxTime rep)).
Proof.
  unfold finalize, go_div. simpl.
  destruct (Z.gtb_spec (wrap64 (n - FailedRequests rep)) 0) as [Hpos|Hle]; [|done].
  destruct (Z.eqb_spec (wrap64 (n - FailedRequests rep)) 0); [lia|done].
Qed.

Lemma aggregate_fields n elapsed rs :
  aggregate n elapsed rs
  = Some (mkReport n elapsed (StatusCodes (collect n rs).1)
            (SuccessfulRequests (collect n rs).1)
            (FailedRequests (collect n rs).1)
            (if wrap64 (n - FailedRequests (collect n rs).1) >? 0
             then wrap64 (Z.quot (collect n rs).2
                            (wrap64 (n - FailedRequests (collect n rs).1)))
             else 0)
            (MinTime (collect n rs).1) (MaxTime (collect n rs).1)).
Proof.
  unfold aggregate. pose proof (collect_closed_form n rs) as Hcf.
  destruct (collect n rs) as [rep tt]. rewrite finalize_fields.
  destruct Hcf as (-> & _ & -> & _). done.
Qed.

(** With as many outcomes as requests, the divisor of the average is the
    number of outcomes without error. *)
Lemma divisor_is_completed n rs :
  Z.of_nat (length rs) = n → n <= max_int →
  wrap64 (n - FailedRequests (collect n rs).1)
  = Z.of_nat (length (completed rs)).
Proof.
  intros Hlen Hmax.
  pose proof (collect_closed_form n rs) as Hcf.
  destruct (collect n rs) as [rep tt]. simpl.
  destruct Hcf as (_ & _ & _ & -> & _).
  rewrite count_in_int by lia.
  pose proof (count_split_error rs). pose proof (count_bounds is_error rs).
  rewrite completed_length.
  rewrite wrap64_id; [lia|]. unfold in_int, min_int, max_int in *. lia.
Qed.

(** ** The status-code table *)

Lemma sum_other_codes_insert (m : gmap Z Z) k v :
  sum_other_codes (<[k := v]> m)
  = sum_other_codes m
    - (if k =? StatusOK then 0 else default 0 (m !! k))
    + (if k =? StatusOK then 0 else v).
Proof.
  assert (Hcomm : ∀ (m' : gmap Z Z) (j1 j2 z1 z2 y : Z),
    j1 ≠ j2 → m' !! j1 = Some z1 → m' !! j2 = Some z2 →
    (if j1 =? StatusOK then (if j2 =? StatusOK then y else z2 + y)
     else z1 + (if j2 =? StatusOK then y else z2 + y))
    = (if j2 =? StatusOK then (if j1 =? StatusOK then y else z1 + y)
       else z2 + (if j1 =? StatusOK then y else z1 + y))).
  { intros. destruct (j1 =? StatusOK), (j2 =? StatusOK); lia. }
  unfold sum_other_codes.
  destruct (m !! k) as [old|] eqn:Hk; simpl.
  - rewrite <- (insert_delete_eq m k v).
    rewrite map_fold_insert_L; [|by apply Hcomm|by rewrite lookup_delete_eq].
    rewrite (map_fold_delete_L _ _ k old m); [|by apply Hcomm|done].
    destruct (k =? StatusOK); lia.
  - rewrite map_fold_insert_L; [|by apply Hcomm|done].
    destruct (k =? StatusOK); lia.
Qed.

Lemma sum_other_codes_collect n rs :
  Z.of_nat (length rs) <= max_int →
  sum_other_codes (StatusCodes (collect n rs).1) = count other_code rs.
Proof.
  induction rs as [|r rs IH] using rev_ind; intros Hlen.
  { done. }
  rewrite length_app in Hlen. simpl in Hlen.
  rewrite collect_snoc, count_app. simpl.
  pose proof (collect_closed_form n rs) as Hcf.
  destruct (collect n rs) as [rep tt]. simpl in IH.
  destruct Hcf as (_ & _ & _ & _ & _ & Hcodes & _).
  unfold range_body, other_code at 2.
  destruct (is_error r) eqn:Er.
  - apply is_error_true in Er as [e He]. rewrite He. simpl.
    rewrite IH by lia. lia.
  - rewrite (is_error_false _ Er). simpl.
    unfold map_incr. rewrite sum_other_codes_insert, IH by lia.
    rewrite Hcodes.
    pose proof (count_bounds (has_code (StatusCode r)) rs) as Hb.
    assert (Hw : wrap64 (count (has_code (StatusCode r)) rs)
                 = count (has_code (StatusCode r)) rs)
      by (apply count_in_int; lia).
    destruct (StatusCode r =? StatusOK); simpl; [lia|].
    destruct (Z.eqb_spec (count (has_code (StatusCode r)) rs) 0) as [E0|_]; simpl.
    + rewrite wrap64_id; [lia|].
      unfold in_int, min_int, max_int. lia.
    + rewrite Hw. rewrite wrap64_id; [lia|].
      unfold in_int, min_int, max_int in *. lia.
Qed.

Lemma count_partition rs :
  count (has_code StatusOK) rs + count other_code rs + count is_error rs
  = Z.of_nat (length rs).
Proof.
  induction rs as [|r rs IH]; [done|].
  cbn [count length]. unfold has_code at 1, other_code at 1.
  destruct (is_error r), (StatusCode r =? StatusOK); simpl negb; simpl andb; lia.
Qed.

(** C4.  When the loop has received one outcome per request, the report
    returned has [TotalRequests = totalRequests] and satisfies
    [SuccessfulRequests + (sum of StatusCodes for codes other than 200)
     + FailedRequests = totalRequests]. *)
Theorem report_accounts_for_every_request (n elapsed : Z) (rs : list Result) :
  Z.of_nat (length rs) = n → n <= max_int →
  ∃ report, aggregate n elapsed rs = Some report
    ∧ TotalRequests report = n
    ∧ SuccessfulRequests report + sum_other_codes (StatusCodes report)
      + FailedRequests report = n.
Proof.
  intros Hlen Hmax. rewrite aggregate_fields. eexists. split; [done|]. simpl.
  split; [done|].
  rewrite sum_other_codes_collect by lia.
  pose proof (collect_closed_form n rs) as Hcf.
  destruct (collect n rs) as [rep tt]. simpl.
  destruct Hcf as (_ & _ & _ & -> & -> & _).
  rewrite !count_in_int by lia.
  pose proof (count_partition rs). lia.
Qed.

Lemma report_accounts_for_every_request_witness :
  ∃ report,
    aggregate 5 1000
      [mkResult 200 5 None; mkResult 500 6 None; mkResult 200 7 None;
       mkResult 0 8 (Some "timeout"); mkResult 404 9 None] = Some report
    ∧ TotalRequests report = 5
    ∧ SuccessfulRequests report + sum_other_codes (StatusCodes report)
      + FailedRequests report = 5.
Proof.
  apply (report_accounts_for_every_request 5 1000
           [mkResult 200 5 None; mkResult 500 6 None; mkResult 200 7 None;
            mkResult 0 8 (Some "timeout"); mkResult 404 9 None]).
  - reflexivity.
  - vm_compute. discriminate.
Defined.

(** ** The average *)

Lemma aggregate_average n elapsed rs :
  Z.of_nat (length rs) = n → n <= max_int →
  ∃ report, aggregate n elapsed rs = Some report
    ∧ MinTime report = Z.min Hour (default Hour (smallest (completed rs)))
    ∧ MaxTime report = Z.max 0 (default 0 (largest (completed rs)))
    ∧ AverageTime report
      = if Z.of_nat (length (completed rs)) >? 0
        then Z.quot (wrap64 (sum_durations (completed rs)))
               (Z.of_nat (length (completed rs)))
        else 0.
Proof.
  intros Hlen Hmax. rewrite aggregate_fields. eexists. split; [done|]. simpl.
  rewrite divisor_is_completed by done.
  pose proof (collect_closed_form n rs) as Hcf.
  destruct (collect n rs) as [rep tt]. simpl.
  destruct Hcf as (_ & _ & _ & _ & _ & _ & -> & -> & ->).
  repeat split.
  destruct (Z.gtb_spec (Z.of_nat (length (completed rs))) 0); [|done].
  apply wrap64_quot; [apply wrap64_range|lia].
Qed.

Lemma completed_nonempty rs :
  completed rs ≠ [] ↔ 0 < Z.of_nat (length (completed rs)).
Proof. destruct (completed rs); simpl; split; intros; (done || lia). Qed.

(** C5 (as stated, refuted).  Two outcomes without error whose durations
    add up to [2^63] nanoseconds: the 64-bit [totalTime] wraps to [-2^63]
    and the average reported is [-2^62], not the sum divided by two. *)
Lemma average_duration_counterexample :
  let rs := [mkResult 200 (2 ^ 62) None; mkResult 200 (2 ^ 62) None] in
  Forall (λ r, 0 <= Duration r <= max_int) rs
  ∧ completed rs ≠ []
  ∧ ∃ report, aggregate 2 1 rs = Some report
      ∧ AverageTime report = - 2 ^ 62
      ∧ AverageTime report
        ≠ Z.quot (sum_durations (completed rs))
            (Z.of_nat (length (completed rs))).
Proof.
  simpl. split; [|split; [done|]].
  - repeat constructor; simpl; unfold max_int; lia.
  - eexists. split; [vm_compute; reflexivity|]. simpl. split; [done|].
    vm_compute. discriminate.
Qed.

(** C5 (amended).  With one outcome per request and a sum of the
    durations of the outcomes without error that fits in 64 bits,
    [AverageTime] is that sum divided (truncating) by the number of
    outcomes without error when there is at least one; when there is none
    the guard of the division is false, no division is evaluated and
    [AverageTime] keeps its zero value.  In both cases a report is
    returned. *)
Theorem average_duration_is_mean (n elapsed : Z) (rs : list Result) :
  Z.of_nat (length rs) = n → n <= max_int →
  in_int (sum_durations (completed rs)) →
  ∃ report, aggregate n elapsed rs = Some report
    ∧ (completed rs ≠ [] →
       AverageTime report
       = Z.quot (sum_durations (completed rs))
           (Z.of_nat (length (completed rs))))
    ∧ (completed rs = [] →
       (wrap64 (n - FailedRequests (collect n rs).1) >? 0) = false
       ∧ AverageTime report = 0).
Proof.
  intros Hlen Hmax Hsum.
  destruct (aggregate_average n elapsed rs Hlen Hmax) as (rep & Hrep & _ & _ & Havg).
  exists rep. split; [done|]. split.
  - intros Hne%completed_nonempty. rewrite Havg.
    destruct (Z.gtb_spec (Z.of_nat (length (completed rs))) 0); [|lia].
    by rewrite wrap64_id.
  - intros Hnil. rewrite divisor_is_completed by done.
    rewrite Havg, Hnil. done.
Qed.

Lemma average_duration_is_mean_witness :
  ∃ report,
    aggregate 3 1000
      [mkResult 200 40 None; mkResult 0 99 (Some "reset"); mkResult 503 61 None]
    = Some report
    ∧ AverageTime report = 50.
Proof.
  destruct (average_duration_is_mean 3 1000
      [mkResult 200 40 None; mkResult 0 99 (Some "reset"); mkResult 503 61 None])
    as (report & Hrep & Havg & _).
  - reflexivity.
  - vm_compute. discriminate.
  - vm_compute. split; discriminate.
  - exists report. split; [exact Hrep|]. apply Havg. discriminate.
Defined.

(** ** Every request fails *)

Lemma all_failed_completed_nil n rs :
  Z.of_nat (length rs) = n → n <= max_int →
  FailedRequests (collect n rs).1 = n → completed rs = [].
Proof.
  intros Hlen Hmax Hfail.
  pose proof (collect_closed_form n rs) as Hcf.
  destruct (collect n rs) as [rep tt]. simpl in Hfail.
  destruct Hcf as (_ & _ & _ & Hf & _).
  rewrite count_in_int in Hf by lia.
  pose proof (count_split_error rs) as Hsplit.
  rewrite <- completed_length in Hsplit.
  destruct (completed rs); [done|]. simpl in Hsplit. lia.
Qed.

(** C6 (as stated, refuted).  Two requests, both failing: [MinTime] of the
    report is one hour, the value the report is created with, not zero. *)
Lemma all_failed_min_counterexample :
  let rs := [mkResult 0 4 (Some "refused"); mkResult 0 5 (Some "refused")] in
  FailedRequests (collect 2 rs).1 = 2
  ∧ ∃ report, aggregate 2 1 rs = Some report
      ∧ MinTime report = 3600000000000
      ∧ MinTime report ≠ 0.
Proof.
  simpl. split; [reflexivity|].
  eexists. split; [vm_compute; reflexivity|]. simpl. split; [reflexivity|done].
Qed.

(** C6 (amended).  When every one of the [totalRequests] outcomes carries
    an error ([FailedRequests = totalRequests]), the report is returned
    without any division (the guard is false); [AverageTime] and
    [MaxTime] are zero and [MinTime] is one hour, the values the report
    was created with, and [StatusCodes] is empty. *)
Theorem all_failed_leaves_defaults (n elapsed : Z) (rs : list Result) :
  Z.of_nat (length rs) = n → n <= max_int →
  FailedRequests (collect n rs).1 = n →
  ∃ report, aggregate n elapsed rs = Some report
    ∧ (wrap64 (n - FailedRequests (collect n rs).1) >? 0) = false
    ∧ AverageTime report = 0 ∧ MaxTime report = 0 ∧ MinTime report = Hour
    ∧ StatusCodes report = ∅
    ∧ AverageTime report = AverageTime (init_report n)
    ∧ MaxTime report = MaxTime (init_report n)
    ∧ MinTime report = MinTime (init_report n)
    ∧ StatusCodes report = StatusCodes (init_report n)
    ∧ TotalRequests report = n ∧ FailedRequests report = n
    ∧ SuccessfulRequests report = 0.
Proof.
  intros Hlen Hmax Hfail.
  pose proof (all_failed_completed_nil n rs Hlen Hmax Hfail) as Hnil.
  assert (Hguard : (wrap64 (n - FailedRequests (collect n rs).1) >? 0) = false).
  { rewrite divisor_is_completed, Hnil by done. done. }
  exists (mkReport n elapsed ∅ 0 n 0 Hour 0).
  split; [|split; [exact Hguard|by repeat split]].
  rewrite aggregate_fields, Hguard, Hfail.
  rewrite collect_skips_errors, Hnil. done.
Qed.

Lemma all_failed_leaves_defaults_witness :
  ∃ report,
    aggregate 3 77
      [mkResult 0 4 (Some "refused"); mkResult 0 5 (Some "refused");
       mkResult 0 6 (Some "refused")]
    = Some report
    ∧ AverageTime report = 0 ∧ MaxTime report = 0 ∧ MinTime report = Hour
    ∧ StatusCodes report = ∅.
Proof.
  destruct (all_failed_leaves_defaults 3 77
           [mkResult 0 4 (Some "refused"); mkResult 0 5 (Some "refused");
            mkResult 0 6 (Some "refused")])
    as (report & Hrep & _ & Havg & Hmax & Hmin & Hcodes & _).
  - reflexivity.
  - vm_compute. discriminate.
  - reflexivity.
  - exists report. repeat split; assumption.
Defined.

(** ** Minimum, average, maximum *)

Lemma sum_between rs :
  rs ≠ [] →
  ∃ m M, smallest rs = Some m ∧ largest rs = Some M
    ∧ Z.of_nat (length rs) * m <= sum_durations rs
    ∧ sum_durations rs <= Z.of_nat (length rs) * M.
Proof.
  induction rs as [|r rs IH]; [done|]. intros _.
  destruct rs as [|r' rs'].
  { exists (Duration r), (Duration r). simpl. repeat split; lia. }
  destruct IH as (m & M & Hm & HM & Hlo & Hhi); [done|].
  cbn [smallest largest]. cbn [smallest largest] in Hm, HM. rewrite Hm, HM.
  eexists _, _. split; [done|]. split; [done|].
  change (sum_durations (r :: r' :: rs'))
    with (Duration r + sum_durations (r' :: rs')).
  rewrite (length_cons r). nia.
Qed.

(** C7 (as stated, refuted).  The durations [2^63 - 1] and [1] wrap the
    64-bit sum to [-2^63]: the average reported is [-2^62], below the
    minimum reported, 1. *)
Lemma min_avg_max_counterexample :
  let rs := [mkResult 200 max_int None; mkResult 200 1 None] in
  Forall (λ r, 0 <= Duration r <= max_int) rs
  ∧ completed rs ≠ []
  ∧ ∃ report, aggregate 2 1 rs = Some report
      ∧ MinTime report = 1
      ∧ AverageTime report = - 2 ^ 62
      ∧ ¬ (MinTime report <= AverageTime report <= MaxTime report).
Proof.
  simpl. split; [|split; [done|]].
  - repeat constructor; simpl; unfold max_int; lia.
  - eexists. split; [vm_compute; reflexivity|]. simpl.
    split; [done|]. split; [done|]. lia.
Qed.

(** C7 (amended).  With one outcome per request, at least one of them
    without error, and a sum of the durations of the outcomes without error
    that fits in 64 bits, the report returned satisfies
    [MinTime <= AverageTime <= MaxTime]. *)
Theorem min_avg_max_ordered (n elapsed : Z) (rs : list Result) :
  Z.of_nat (length rs) = n → n <= max_int →
  in_int (sum_durations (completed rs)) →
  completed rs ≠ [] →
  ∃ report, aggregate n elapsed rs = Some report
    ∧ MinTime report <= AverageTime report <= MaxTime report.
Proof.
  intros Hlen Hmax Hsum Hne.
  destruct (aggregate_average n elapsed rs Hlen Hmax)
    as (rep & Hrep & Hmin & Hmx & Havg).
  exists rep. split; [done|].
  destruct (sum_between _ Hne) as (m & M & Hm & HM & Hlo & Hhi).
  apply completed_nonempty in Hne.
  rewrite Hmin, Hmx, Havg, Hm, HM. simpl.
  destruct (Z.gtb_spec (Z.of_nat (length (completed rs))) 0); [|lia].
  rewrite wrap64_id by done.
  assert (m <= sum_durations (completed rs) ÷ Z.of_nat (length (completed rs)))
    by (by apply Z.quot_le_lower_bound).
  assert (sum_durations (completed rs) ÷ Z.of_nat (length (completed rs)) <= M)
    by (by apply Z.quot_le_upper_bound).
  lia.
Qed.

Lemma min_avg_max_ordered_witness :
  ∃ report,
    aggregate 3 1000
      [mkResult 200 40 None; mkResult 0 99 (Some "reset"); mkResult 503 61 None]
    = Some report
    ∧ MinTime report <= AverageTime report <= MaxTime report.
Proof.
  apply (min_avg_max_ordered 3 1000
      [mkResult 200 40 None; mkResult 0 99 (Some "reset"); mkResult 503 61 None]).
  - reflexivity.
  - vm_compute. discriminate.
  - vm_compute. split; discriminate.
  - discriminate.
Defined.

(** ** The one-hour start of the minimum *)

(** C10.  For every list of outcomes a report is returned whose [MinTime]
    is the minimum of one hour and the smallest duration of an outcome
    without error (one hour when there is none).  Hence it is one hour when
    every such duration exceeds one hour, and one hour, not zero, when no
    outcome is without error. *)
Theorem min_time_capped_at_one_hour (n elapsed : Z) (rs : list Result) :
  ∃ report, aggregate n elapsed rs = Some report
    ∧ MinTime report = Z.min Hour (default Hour (smallest (completed rs)))
    ∧ ((∀ r, r ∈ completed rs → Hour < Duration r) → MinTime report = Hour)
    ∧ (completed rs = [] → MinTime report = Hour ∧ MinTime report ≠ 0).
Proof.
  rewrite aggregate_fields. eexists. split; [done|]. simpl.
  pose proof (collect_closed_form n rs) as Hcf.
  destruct (collect n rs) as [rep tt]. simpl.
  destruct Hcf as (_ & _ & _ & _ & _ & _ & -> & _).
  split; [done|]. split.
  - intros Hall.
    assert (Hge : ∀ l, (∀ r, r ∈ l → Hour < Duration r) →
                       Hour <= default Hour (smallest l)).
    { clear. induction l as [|r l IH]; intros Hall; simpl; [lia|].
      assert (Hour < Duration r) by (apply Hall; left).
      assert (Hour <= default Hour (smallest l))
        by (apply IH; intros; apply Hall; by right).
      destruct (smallest l); simpl in *; lia. }
    specialize (Hge _ Hall). lia.
  - intros ->. simpl. done.
Qed.

Lemma min_time_capped_at_one_hour_witness :
  ∃ report,
    aggregate 2 1 [mkResult 200 (2 * Hour) None; mkResult 200 (3 * Hour) None]
    = Some report
    ∧ MinTime report = Hour.
Proof.
  destruct (min_time_capped_at_one_hour 2 1
      [mkResult 200 (2 * Hour) None; mkResult 200 (3 * Hour) None])
    as (report & Hrep & _ & Hcap & _).
  exists report. split; [exact Hrep|]. apply Hcap.
  intros r Hr. apply list_elem_of_In in Hr. simpl in Hr.
  destruct Hr as [<-|[<-|[]]]; vm_compute; reflexivity.
Defined.

(** ** The request worker *)

(** C8.  The worker builds one [Result] from whatever [http.Get] returns:
    with an error the result carries that error, the measured duration and
    the zero status code; with a response it carries the status code of
    the response, whatever it is, and no error.  At [http.Get] the worker
    always moves on to the send with that result (a failed exchange is not
    a panic), and the send puts exactly that result on [resultChan]. *)
Theorem worker_yields_one_outcome (duration : Z) :
  (∀ e, worker_result (Failed e) duration = mkResult 0 duration (Some e))
  ∧ (∀ status,
       worker_result (Responded status) duration = mkResult status duration None)
  ∧ (∀ n c s i reply,
       workers s !! i = Some WGet →
       worker_step n c i reply duration s
       = Next (with_workers
                 (<[i := WSend (worker_result reply duration)]> (workers s)) s))
  ∧ (∀ n c s i result reply,
       workers s !! i = Some (WSend result) →
       closed s = false → Z.of_nat (length (resultChan s)) < n →
       worker_step n c i reply duration s
       = Next (with_workers (<[i := WRelease result]> (workers s))
                 (with_resultChan (resultChan s ++ [result]) s))).
Proof.
  repeat split.
  - intros n c s i reply Hi. unfold worker_step. by rewrite Hi.
  - intros n c s i result reply Hi Hopen Hroom. unfold worker_step.
    rewrite Hi, Hopen.
    by destruct (Z.ltb_spec (Z.of_nat (length (resultChan s))) n); [|lia].
Qed.

Lemma worker_yields_one_outcome_witness :
  worker_step 1 1 0 (Failed "connection refused") 12
    (mkState (MFor 1) [WGet] None 1 1 [] false [])
  = Next (mkState (MFor 1)
            [WSend (mkResult 0 12 (Some "connection refused"))]
            None 1 1 [] false []).
Proof.
  destruct (worker_yields_one_outcome 12) as (_ & _ & Hget & _).
  apply (Hget 1 1 (mkState (MFor 1) [WGet] None 1 1 [] false []) 0%nat).
  reflexivity.
Defined.

(** ** Counting over the workers *)

Section WorkerSums.
Variable g : worker_pc → Z.

Lemma worker_sum_app ws1 ws2 :
  foldr (λ w acc, g w + acc) 0 (ws1 ++ ws2)
  = foldr (λ w acc, g w + acc) 0 ws1 + foldr (λ w acc, g w + acc) 0 ws2.
Proof. induction ws1 as [|w ws1 IH]; simpl; [done | rewrite IH; lia]. Qed.

Lemma worker_sum_insert ws i w w' :
  ws !! i = Some w →
  foldr (λ w acc, g w + acc) 0 (<[i := w']> ws)
  = foldr (λ w acc, g w + acc) 0 ws - g w + g w'.
Proof.
  revert i. induction ws as [|x ws IH]; intros [|i] Hi; simplify_eq/=.
  - lia.
  - rewrite (IH i Hi). lia.
Qed.

Lemma worker_sum_nonneg ws :
  (∀ w, 0 <= g w) → 0 <= foldr (λ w acc, g w + acc) 0 ws.
Proof.
  intros Hg. induction ws as [|x ws IH]; simpl; [done|].
  specialize (Hg x). lia.
Qed.

Lemma worker_sum_lookup ws i w :
  (∀ w, 0 <= g w) → ws !! i = Some w →
  g w <= foldr (λ w acc, g w + acc) 0 ws.
Proof.
  intros Hg. revert i. induction ws as [|x ws IH]; intros [|i] Hi; simplify_eq/=.
  - pose proof (worker_sum_nonneg ws Hg). lia.
  - specialize (IH i Hi). specialize (Hg x). lia.
Qed.
End WorkerSums.

Lemma tally_app f ws1 ws2 : tally f (ws1 ++ ws2) = tally f ws1 + tally f ws2.
Proof. apply (worker_sum_app (λ w, if f w then 1 else 0)). Qed.

Lemma tally_insert f ws i w w' :
  ws !! i = Some w →
  tally f (<[i := w']> ws)
  = tally f ws - (if f w then 1 else 0) + (if f w' then 1 else 0).
Proof. apply (worker_sum_insert (λ w, if f w then 1 else 0)). Qed.

Lemma tally_nonneg f ws : 0 <= tally f ws.
Proof.
  apply (worker_sum_nonneg (λ w, if f w then 1 else 0)).
  intros w. destruct (f w); lia.
Qed.

Lemma tally_lookup f ws i w : ws !! i = Some w → f w = true → 1 <= tally f ws.
Proof.
  intros Hi Hf.
  pose proof (worker_sum_lookup (λ w, if f w then 1 else 0) ws i w) as H.
  simpl in H. rewrite Hf in H. apply H; [|done].
  intros x. destruct (f x); lia.
Qed.

Lemma tally_zero f ws : tally f ws = 0 → Forall (λ w, f w = false) ws.
Proof.
  induction ws as [|w ws IH]; [constructor|].
  change (tally f (w :: ws)) with ((if f w then 1 else 0) + tally f ws).
  pose proof (tally_nonneg f ws). intros Hz.
  constructor; [destruct (f w); [lia|done] | apply IH; destruct (f w); lia].
Qed.

(** A worker that can move without waiting for a slot, or else no slot is
    held and some worker waits for one. *)
Lemma unfinished_worker ws :
  0 < tally running ws →
  (∃ i w, ws !! i = Some w ∧ running w = true ∧ w ≠ WAcquire)
  ∨ (tally holds_slot ws = 0 ∧ ∃ i, ws !! i = Some WAcquire).
Proof.
  induction ws as [|w ws IH]; [simpl; lia|].
  change (tally running (w :: ws))
    with ((if running w then 1 else 0) + tally running ws).
  change (tally holds_slot (w :: ws))
    with ((if holds_slot w then 1 else 0) + tally holds_slot ws).
  intros Hpos.
  destruct w as [| |r|r|r|r];
    try (left; exists 0%nat; eexists; repeat split; done).
  - (* the head waits for a slot *)
    destruct (decide (0 < tally running ws)) as [Hrest|Hrest].
    + destruct (IH Hrest) as [(i & x & Hi & Hr & Hx)|(Hz & i & Hi)].
      * left. by exists (S i), x.
      * right. simpl. split; [lia|]. by exists 0%nat.
    + right. split; [|by exists 0%nat].
      pose proof (tally_nonneg running ws).
      assert (Hz : tally running ws = 0) by lia.
      apply tally_zero in Hz. simpl.
      clear -Hz. induction Hz as [|x ws Hx _ IH]; [done|].
      change (tally holds_slot (x :: ws))
        with ((if holds_slot x then 1 else 0) + tally holds_slot ws).
      destruct x; simplify_eq/=; lia.
  - (* the head has ended *)
    simpl in Hpos.
    destruct (IH Hpos) as [(i & x & Hi & Hr & Hx)|(Hz & i & Hi)].
    + left. by exists (S i), x.
    + right. simpl. split; [lia|]. by exists (S i).
Qed.

(** ** Outcomes held by the workers *)

Lemma bind_insert_same (g : worker_pc → list Result) ws i w w' :
  ws !! i = Some w → g w' = g w → <[i := w']> ws ≫= g = ws ≫= g.
Proof.
  revert i. induction ws as [|x ws IH]; intros [|i] Hi Hg; simplify_eq/=.
  - by rewrite Hg.
  - by rewrite (IH i).
Qed.

Lemma bind_insert_new (g : worker_pc → list Result) ws i w w' :
  ws !! i = Some w → g w = [] → <[i := w']> ws ≫= g ≡ₚ g w' ++ (ws ≫= g).
Proof.
  revert i. induction ws as [|x ws IH]; intros [|i] Hi Hg; simplify_eq/=.
  - by rewrite Hg.
  - rewrite (IH i Hi Hg). rewrite !(assoc (++)).
    f_equiv. apply Permutation_app_comm.
Qed.

Lemma bind_length_le (g : worker_pc → list Result) ws :
  (∀ w, (length (g w) <= 1)%nat) → (length (ws ≫= g) <= length ws)%nat.
Proof.
  intros Hg. induction ws as [|x ws IH]; simpl; [done|].
  rewrite length_app. specialize (Hg x).
  change (list_bind _ _ g ws) with (ws ≫= g). lia.
Qed.

Lemma all_exited ws :
  tally running ws = 0 →
  Forall (λ w, ∃ r, w = WExit r) ws
  ∧ ws ≫= sent_of = ws ≫= outcome_of
  ∧ length (ws ≫= sent_of) = length ws.
Proof.
  intros Hz%tally_zero. induction Hz as [|w ws Hw _ (IH1 & IH2 & IH3)].
  { repeat split; constructor. }
  destruct w; simplify_eq/=. repeat split.
  - constructor; eauto.
  - by rewrite IH2.
  - by rewrite IH3.
Qed.

Lemma sent_of_short w : (length (sent_of w) <= 1)%nat.
Proof. destruct w; simpl; lia. Qed.

(** ** The invariant of the run *)

Section Run.
Variables n c : Z.

Lemma inv_init : 0 <= n → 0 <= c → inv n c init_state.
Proof. intros Hn Hc. close_inv; repeat split; try done; lia. Qed.

Lemma main_step_inv elapsed s s' :
  inv n c s → main_step n elapsed s = Next s' → inv n c s'.
Proof.
  intros Hinv. destruct s as [m ws cl w sm ch cd rc].
  open_inv Hinv. unfold main_step; cbn [mainG resultChan closed]. intros Hstep.
  destruct m as [i|i| |rep tt|rep].
  - destruct Hmain as (Hi & Hlen & -> & ->).
    destruct (Z.ltb_spec i n); simplify_eq; close_inv; repeat split; try done; try lia.
  - destruct Hmain as (Hi & Hlen & -> & ->). simplify_eq.
    close_inv; rewrite ?tally_app, ?bind_app, ?length_app; simpl;
      rewrite ?app_nil_r; repeat split; try done; try lia.
  - destruct Hmain as (Hlen & -> & ->). simplify_eq.
    close_inv; repeat split; try done.
  - destruct Hmain as (Hlen & Hcl' & Hcol).
    destruct ch as [|r rest].
    + destruct cd; [|done].
      rewrite finalize_fields in Hstep. simplify_eq.
      close_inv; repeat split; try done.
      all: try (destruct cl as [[]|]; intuition congruence).
      * exists elapsed. unfold aggregate.
        by rewrite <- Hcol, finalize_fields.
    + destruct (range_body (rep, tt) r) as [rep' tt'] eqn:Hbody.
      simplify_eq. close_inv; repeat split; try done.
      * rewrite Hchan. rewrite <- (assoc (++)). done.
      * by rewrite collect_snoc, <- Hcol.
  - done.
Qed.

Lemma worker_step_inv i reply duration s s' :
  inv n c s → worker_step n c i reply duration s = Next s' → inv n c s'.
Proof.
  intros Hinv. destruct s as [m ws cl w sm ch cd rc].
  open_inv Hinv.
  unfold worker_step; cbn [workers semaphore closed resultChan wg].
  destruct (ws !! i) as [w0|] eqn:Hi; [|done].
  destruct w0 as [| |r|r|r|r]; intros Hstep.
  - destruct (Z.ltb_spec sm c); simplify_eq.
    close_inv;
      rewrite ?(tally_insert _ _ _ _ _ Hi), ?length_insert,
        ?(bind_insert_same sent_of _ _ _ _ Hi) by done; simpl;
      try done; try lia.
  - simplify_eq.
    close_inv;
      rewrite ?(tally_insert _ _ _ _ _ Hi), ?length_insert,
        ?(bind_insert_same sent_of _ _ _ _ Hi) by done; simpl;
      try done; try lia.
  - destruct cd; [done|].
    destruct (Z.ltb_spec (Z.of_nat (length ch)) n); simplify_eq.
    close_inv;
      rewrite ?(tally_insert _ _ _ _ _ Hi), ?length_insert; simpl;
      try done; try lia.
    + rewrite (bind_insert_new sent_of _ _ _ _ Hi) by done. simpl.
      rewrite Hchan, (assoc (++)). apply Permutation_cons_append.
    + destruct m; try done.
      destruct Hmain as (_ & -> & _). by destruct Hcl.
  - destruct (Z.ltb_spec 0 sm); simplify_eq.
    close_inv;
      rewrite ?(tally_insert _ _ _ _ _ Hi), ?length_insert,
        ?(bind_insert_same sent_of _ _ _ _ Hi) by done; simpl;
      try done; try lia.
  - destruct (Z.ltb_spec (w - 1) 0); simplify_eq.
    close_inv;
      rewrite ?(tally_insert _ _ _ _ _ Hi), ?length_insert,
        ?(bind_insert_same sent_of _ _ _ _ Hi) by done; simpl;
      try done; try lia.
    destruct cl as [[]|]; try done; destruct Hcl; lia.
  - done.
Qed.

Lemma closer_step_inv s s' :
  inv n c s → closer_step s = Next s' → inv n c s'.
Proof.
  intros Hinv. destruct s as [m ws cl w sm ch cd rc].
  open_inv Hinv. unfold closer_step; cbn [closer wg closed].
  destruct cl as [[]|]; intros Hstep; try done.
  - destruct (Z.eqb_spec w 0); simplify_eq.
    close_inv; try done.
    destruct m; intuition congruence.
  - destruct cd; simplify_eq. close_inv; try done.
    + destruct m; intuition congruence.
    + by destruct Hcl.
Qed.

Lemma step_inv a s s' : inv n c s → step_fn n c a s = Next s' → inv n c s'.
Proof.
  destruct a; simpl; eauto using main_step_inv, worker_step_inv, closer_step_inv.
Qed.

Lemma reachable_inv s : 0 <= n → 0 <= c → reachable n c s → inv n c s.
Proof.
  intros Hn Hc. unfold reachable. revert s.
  apply rtc_ind_r; [by apply inv_init|].
  intros s1 s2 _ [a Ha] IH. by eapply step_inv.
Qed.

Lemma inv_no_panic a s : inv n c s → step_fn n c a s ≠ Panic.
Proof.
  intros Hinv. destruct s as [m ws cl w sm ch cd rc]. open_inv Hinv.
  destruct a as [elapsed|i reply duration|]; simpl.
  - unfold main_step; cbn [mainG resultChan closed].
    destruct m as [i|i| |rep tt|rep]; try done.
    + by destruct (i <? n).
    + destruct ch as [|r rest].
      * destruct cd; [|done]. by rewrite finalize_fields.
      * by destruct (range_body (rep, tt) r).
  - unfold worker_step; cbn [workers semaphore closed resultChan wg].
    destruct (ws !! i) as [w0|] eqn:Hi; [|done].
    pose proof (tally_lookup running ws i w0 Hi) as Hrun.
    destruct w0 as [| |r|r|r|r]; try done.
    + by destruct (sm <? c).
    + destruct cd.
      * destruct cl as [[]|]; try done; destruct Hcl as [Hcd Hz]; try done.
        specialize (Hrun eq_refl). exfalso. destruct m; lia.
      * by destruct (Z.of_nat (length ch) <? n).
    + by destruct (0 <? sm).
    + specialize (Hrun eq_refl).
      destruct (Z.ltb_spec (w - 1) 0); [|done]. exfalso. destruct m; lia.
  - unfold closer_step; cbn [closer wg closed].
    destruct cl as [[]|]; try done.
    + by destruct (w =? 0).
    + destruct Hcl as [-> _]. done.
Qed.

Lemma inv_received_bound s :
  inv n c s →
  Z.of_nat (length (received s)) + Z.of_nat (length (resultChan s)) <= n.
Proof.
  intros Hinv. destruct s as [m ws cl w sm ch cd rc]. open_inv Hinv.
  pose proof (bind_length_le sent_of ws sent_of_short) as Hle.
  apply Permutation_length in Hchan. rewrite length_app in Hchan.
  destruct m; lia.
Qed.

Lemma fuel_decreases a s s' :
  inv n c s → step_fn n c a s = Next s' → fuel n s' < fuel n s.
Proof.
  intros Hinv. pose proof (inv_received_bound s Hinv) as Hrec. revert Hrec.
  destruct s as [m ws cl w sm ch cd rc]. open_inv Hinv.
  unfold fuel, main_fuel. intros Hrec.
  destruct a as [elapsed|i reply duration|]; simpl.
  - unfold main_step; cbn [mainG resultChan closed].
    destruct m as [i|i| |rep tt|rep]; try done.
    + destruct (Z.ltb_spec i n); intros; simplify_eq; simpl; lia.
    + intros; simplify_eq; simpl. rewrite worker_sum_app. simpl. lia.
    + intros; simplify_eq; simpl. destruct Hmain as (_ & -> & ->). simpl. lia.
    + destruct ch as [|r rest].
      * destruct cd; [|done]. rewrite finalize_fields.
        intros; simplify_eq; simpl. lia.
      * destruct (range_body (rep, tt) r).
        intros; simplify_eq; simpl. rewrite length_app. simpl. lia.
  - unfold worker_step; cbn [workers semaphore closed resultChan wg].
    destruct (ws !! i) as [w0|] eqn:Hi; [|done].
    destruct w0 as [| |r|r|r|r]; try done.
    + destruct (sm <? c); intros; simplify_eq; simpl.
      rewrite (worker_sum_insert _ _ _ _ _ Hi). simpl. lia.
    + intros; simplify_eq; simpl.
      rewrite (worker_sum_insert _ _ _ _ _ Hi). simpl. lia.
    + destruct cd; [done|].
      destruct (Z.of_nat (length ch) <? n); intros; simplify_eq; simpl.
      rewrite (worker_sum_insert _ _ _ _ _ Hi). simpl. lia.
    + destruct (0 <? sm); intros; simplify_eq; simpl.
      rewrite (worker_sum_insert _ _ _ _ _ Hi). simpl. lia.
    + destruct (w - 1 <? 0); intros; simplify_eq; simpl.
      rewrite (worker_sum_insert _ _ _ _ _ Hi). simpl. lia.
  - unfold closer_step; cbn [closer wg closed].
    destruct cl as [[]|]; try done.
    + destruct (w =? 0); intros; simplify_eq; simpl. lia.
    + destruct cd; intros; simplify_eq; simpl. lia.
Qed.

Lemma fuel_nonneg s : inv n c s → 0 <= fuel n s.
Proof.
  intros Hinv. pose proof (inv_received_bound s Hinv) as Hrec. revert Hrec.
  destruct s as [m ws cl w sm ch cd rc]. open_inv Hinv.
  unfold fuel, main_fuel. simpl. intros Hrec.
  assert (0 <= foldr (λ w acc, worker_fuel w + acc) 0 ws)
    by (apply worker_sum_nonneg; intros []; simpl; lia).
  assert (0 <= closer_fuel cl) by (destruct cl as [[]|]; simpl; lia).
  destruct m; lia.
Qed.

Lemma inv_progress s :
  0 < c → inv n c s → (∀ rep, mainG s ≠ MReturned rep) →
  ∃ a s', step_fn n c a s = Next s'.
Proof.
  intros Hc Hinv. destruct s as [m ws cl w sm ch cd rc]. open_inv Hinv.
  intros Hnot.
  destruct m as [i|i| |rep tt|rep]; [..|by destruct (Hnot rep)].
  - exists (ActMain 0). cbn [step_fn]. unfold main_step; cbn [mainG resultChan closed].
    destruct (i <? n); eauto.
  - exists (ActMain 0). cbn [step_fn]. unfold main_step; cbn [mainG resultChan closed]. eauto.
  - exists (ActMain 0). cbn [step_fn]. unfold main_step; cbn [mainG resultChan closed]. eauto.
  - destruct ch as [|r rest].
    2:{ exists (ActMain 0). cbn [step_fn]. unfold main_step; cbn [mainG resultChan closed].
        destruct (range_body (rep, tt) r). eauto. }
    destruct cd.
    { exists (ActMain 0). cbn [step_fn]. unfold main_step; cbn [mainG resultChan closed].
      rewrite finalize_fields. eauto. }
    destruct Hmain as (Hlen & Hcl' & _).
    destruct cl as [[]|]; [| |by destruct Hcl|done].
    2:{ exists ActCloser. simpl. unfold closer_step. simpl. eauto. }
    destruct (Z.eqb_spec w 0) as [Hw|Hw].
    { exists ActCloser. simpl. unfold closer_step. simpl.
      rewrite Hw. simpl. eauto. }
    pose proof (tally_nonneg running ws) as Hnn.
    destruct (unfinished_worker ws) as [(i & x & Hi & Hr & Hx)|(Hz & i & Hi)];
      [lia| |].
    + exists (ActWorker i (Responded 0) 0). simpl.
      unfold worker_step; cbn [workers semaphore closed resultChan wg].
      rewrite Hi.
      pose proof (lookup_lt_Some _ _ _ Hi) as Hlt.
      pose proof (tally_lookup holds_slot ws i x Hi) as Hhold.
      destruct x as [| |r|r|r|r]; try done.
      * eauto.
      * simpl length. destruct (Z.ltb_spec (Z.of_nat 0) n); [eauto|lia].
      * specialize (Hhold eq_refl).
        destruct (Z.ltb_spec 0 sm); [eauto|lia].
      * destruct (Z.ltb_spec (w - 1) 0); [lia|eauto].
    + exists (ActWorker i (Responded 0) 0). simpl.
      unfold worker_step; cbn [workers semaphore closed resultChan wg].
      rewrite Hi. destruct (Z.ltb_spec sm c); [eauto|lia].
Qed.

Lemma inv_returned s report :
  inv n c s → mainG s = MReturned report →
  Z.of_nat (length (workers s)) = n
  ∧ Forall (λ w, ∃ r, w = WExit r) (workers s)
  ∧ received s ≡ₚ outcomes s
  ∧ Z.of_nat (length (received s)) = n
  ∧ ∃ elapsed, aggregate n elapsed (received s) = Some report.
Proof.
  intros Hinv. destruct s as [m ws cl w sm ch cd rc]. open_inv Hinv.
  unfold outcomes. simpl. intros ->.
  destruct Hmain as (Hlen & -> & -> & Hagg). destruct Hcl as [_ ->].
  pose proof (tally_nonneg running ws).
  destruct (all_exited ws) as (Hall & Hsame & Hsent); [lia|].
  rewrite app_nil_r in Hchan.
  repeat split; try done.
  - by rewrite <- Hsame, Hchan.
  - apply Permutation_length in Hchan. lia.
Qed.

Lemma returned_terminal s report :
  inv n c s → mainG s = MReturned report → terminal n c s.
Proof.
  intros Hinv Hm. destruct (inv_returned s report Hinv Hm) as (_ & Hall & _).
  destruct s as [m ws cl w sm ch cd rc]. open_inv Hinv. subst m.
  destruct Hmain as (_ & -> & _).
  intros [elapsed|i reply duration|] s'; simpl; try done.
  unfold worker_step; cbn [workers].
  destruct (ws !! i) as [x|] eqn:Hi; [|done].
  rewrite Forall_lookup in Hall. destruct (Hall i x Hi) as [r ->]. done.
Qed.

Lemma terminal_returned s :
  0 < c → inv n c s → terminal n c s → ∃ report, mainG s = MReturned report.
Proof.
  intros Hc Hinv Hterm.
  destruct (mainG s) as [i|i| |rep tt|rep] eqn:Hm; [..|by eauto];
    (destruct (inv_progress s Hc Hinv) as (a & s' & Hstep);
     [intros rep'; by rewrite Hm | by destruct (Hterm a s')]).
Qed.

Lemma nsteps_fuel k s s' :
  inv n c s → nsteps (step n c) k s s' →
  inv n c s' ∧ fuel n s' + Z.of_nat k <= fuel n s.
Proof.
  intros Hinv Hsteps. induction Hsteps as [|k s1 s2 s3 [a Ha] _ IH].
  - split; [done|lia].
  - pose proof (fuel_decreases a s1 s2 Hinv Ha).
    destruct IH as [Hinv3 Hle]; [by eapply step_inv|]. split; [done|lia].
Qed.

Lemma run_ends s :
  0 < c → inv n c s → ∃ s', rtc (step n c) s s' ∧ terminal n c s'.
Proof.
  intros Hc.
  assert (Hind : ∀ k s, Z.of_nat k = fuel n s → inv n c s →
            ∃ s', rtc (step n c) s s' ∧ terminal n c s').
  { clear s. intros k. induction (lt_wf k) as [k _ IH]. intros s Hk Hinv.
    destruct (mainG s) as [i|i| |rep tt|rep] eqn:Hm;
      [..|exists s; split; [done|by eapply returned_terminal]];
      (destruct (inv_progress s Hc Hinv) as (a & s1 & Hstep);
       [intros rep'; by rewrite Hm|];
       pose proof (fuel_decreases a s s1 Hinv Hstep) as Hlt;
       pose proof (step_inv a s s1 Hinv Hstep) as Hinv1;
       pose proof (fuel_nonneg s1 Hinv1) as Hnn;
       destruct (IH (Z.to_nat (fuel n s1))) with (s := s1)
         as (s' & Hrtc & Hterm); [lia|lia|done|];
       exists s'; split; [|done];
       eapply rtc_l; [by exists a|done]). }
  intros Hinv. pose proof (fuel_nonneg s Hinv).
  apply (Hind (Z.to_nat (fuel n s))); [lia|done].
Qed.
End Run.

Lemma run_reachable n c sched s s' :
  run n c sched s = Some s' → rtc (step n c) s s'.
Proof.
  revert s. induction sched as [|a sched IH]; intros s; simpl.
  - intros; simplify_eq. done.
  - destruct (step_fn n c a s) as [s1| |] eqn:Ha; try done.
    intros Hrun. eapply rtc_l; [by exists a|by apply IH].
Qed.

(** ** Collection of the outcomes *)



(** ** Admission control *)

(** C2.  In every state a run can reach, the number of workers between
    taking a slot and giving it back (those at [http.Get], at the send or
    at the deferred release) is the number of tokens in [semaphore] and is
    at most [concurrency]; a worker that asks for a slot while
    [concurrency] workers hold one cannot move; and a worker is at
    [http.Get] only by having been there already or by having just taken a
    slot that was free. *)
Theorem admission_never_exceeds_concurrency (n c : Z) :
  0 <= n → 0 <= c →
  (∀ s, reachable n c s → semaphore s = holders s ∧ holders s <= c)
  ∧ (∀ s i reply duration,
       reachable n c s → workers s !! i = Some WAcquire → holders s = c →
       worker_step n c i reply duration s = Blocked)
  ∧ (∀ s a s' i,
       reachable n c s → step_fn n c a s = Next s' →
       workers s' !! i = Some WGet →
       workers s !! i = Some WGet
       ∨ (workers s !! i = Some WAcquire ∧ holders s < c)).
Proof.
  intros Hn Hc.
  assert (Hinv : ∀ s, reachable n c s → inv n c s)
    by (intros; by apply reachable_inv).
  split; [|split].
  - intros s [Hsem Hcap _ _ _ _]%Hinv. split; [done|lia].
  - intros s i reply duration [Hsem _ _ _ _ _]%Hinv Hi Hfull.
    unfold worker_step. rewrite Hi, Hsem, Hfull.
    by rewrite Z.ltb_irrefl.
  - intros s a s' i [Hsem _ _ _ _ _]%Hinv.
    destruct s as [m ws cl w sm ch cd rc]. unfold holders in *. simpl in Hsem.
    destruct a as [elapsed|j reply duration|]; cbn [step_fn workers].
    + unfold main_step; cbn [mainG resultChan closed workers].
      destruct m as [k|k| |rep tt|rep]; try done.
      * destruct (k <? n); intros; simplify_eq/=; by left.
      * intros ?; simplify_eq/=. rewrite lookup_app.
        destruct (ws !! i); [by left|].
        by destruct (i - length ws)%nat as [|[|?]].
      * intros; simplify_eq/=; by left.
      * destruct ch as [|r rest].
        -- destruct cd; [|done]. rewrite finalize_fields.
           intros; simplify_eq/=; by left.
        -- destruct (range_body (rep, tt) r). intros; simplify_eq/=; by left.
    + unfold worker_step; cbn [workers semaphore closed resultChan wg].
      destruct (ws !! j) as [x|] eqn:Hj; [|done].
      pose proof (lookup_lt_Some _ _ _ Hj) as Hlt.
      destruct (decide (i = j)) as [->|Hne].
      * destruct x as [| |r|r|r|r]; try done.
        -- destruct (Z.ltb_spec sm c); [|done]. intros; simplify_eq/=.
           right. split; [done|lia].
        -- intros ?; simplify_eq/=. rewrite list_lookup_insert_eq by done. done.
        -- destruct cd; [done|]. destruct (Z.of_nat (length ch) <? n); [|done].
           intros ?; simplify_eq/=. rewrite list_lookup_insert_eq by done. done.
        -- destruct (0 <? sm); [|done].
           intros ?; simplify_eq/=. rewrite list_lookup_insert_eq by done. done.
        -- destruct (w - 1 <? 0); [done|].
           intros ?; simplify_eq/=. rewrite list_lookup_insert_eq by done. done.
      * destruct x as [| |r|r|r|r]; try done;
          repeat match goal with
                 | |- context [if ?b then _ else _] => destruct b
                 end; try done;
          intros ?; simplify_eq/=; rewrite list_lookup_insert_ne by done;
          by left.
    + unfold closer_step; cbn [closer wg closed].
      destruct cl as [[]|]; try done.
      * destruct (w =? 0); [|done]. intros; simplify_eq/=; by left.
      * destruct cd; [done|]. intros; simplify_eq/=; by left.
Qed.

Lemma admission_never_exceeds_concurrency_witness :
  holders demo_mid <= 1
  ∧ worker_step 2 1 1 (Responded 200) 0 demo_mid = Blocked.
Proof.
  assert (Hreach : reachable 2 1 demo_mid).
  { apply (run_reachable 2 1 demo_admission). vm_compute. reflexivity. }
  destruct (admission_never_exceeds_concurrency 2 1) as (Hcap & Hwait & _);
    [lia|lia|].
  split.
  - exact (proj2 (Hcap demo_mid Hreach)).
  - apply Hwait; [exact Hreach|reflexivity|reflexivity].
Defined.

(** ** The process *)

Section Process.
Variables n c : Z.
Hypothesis Hn : 0 < n.
Hypothesis Hc : 0 < c <= n.

Lemma process_reaches_inv p :
  process_reaches (Running n c init_state) p →
  p = Exited 0 ∨ ∃ s, p = Running n c s ∧ inv n c s.
Proof.
  unfold process_reaches. revert p. apply rtc_ind_r.
  { right. exists init_state. split; [done|]. apply inv_init; lia. }
  intros p1 p2 _ [a Ha] [->|(s & -> & Hinv)]; [done|].
  simpl in Ha.
  destruct (mainG s) eqn:Hm; simplify_eq; [..|by left];
    (pose proof (inv_no_panic n c a s Hinv) as Hnp;
     destruct (step_fn n c a s) as [s1| |] eqn:Hs; simplify_eq;
     right; exists s1; split; [done|by eapply step_inv]).
Qed.

Lemma process_follows_run s s' :
  inv n c s → rtc (step n c) s s' →
  rtc process_steps (Running n c s) (Running n c s').
Proof.
  intros Hinv Hrtc. induction Hrtc as [|s1 s2 s3 [a Ha] _ IH]; [done|].
  eapply rtc_l; [|apply IH; by eapply step_inv].
  exists a. simpl.
  destruct (mainG s1) eqn:Hm; rewrite ?Ha; try done.
  by destruct (returned_terminal n c s1 _ Hinv Hm a s2).
Qed.

Lemma process_exits s :
  inv n c s → process_reaches (Running n c s) (Exited 0).
Proof.
  intros Hinv. destruct (run_ends n c s) as (s' & Hrtc & Hterm); [lia|done|].
  assert (Hinv' : inv n c s').
  { clear Hterm. induction Hrtc as [|s1 s2 s3 [a Ha] _ IH]; [done|].
    apply IH. by eapply step_inv. }
  destruct (terminal_returned n c s') as [report Hm]; [lia|done..|].
  eapply rtc_r; [by apply process_follows_run|].
  exists (ActMain 0). simpl. by rewrite Hm.
Qed.

Lemma process_fuel k s p :
  inv n c s → nsteps process_steps k (Running n c s) p →
  Z.of_nat k <= fuel n s + 1.
Proof.
  revert s. induction k as [|k IH]; intros s Hinv Hsteps.
  { pose proof (fuel_nonneg n c s Hinv). lia. }
  inversion Hsteps as [|k' p1 p2 p3 [a Ha] Hrest]; subst.
  simpl in Ha. pose proof (fuel_nonneg n c s Hinv).
  destruct (mainG s) eqn:Hm; simplify_eq;
    try (destruct (step_fn n c a s) as [s1| |] eqn:Hs; simplify_eq;
         [pose proof (fuel_decreases n c a s s1 Hinv Hs);
          pose proof (step_inv n c a s s1 Hinv Hs) as Hinv1;
          specialize (IH s1 Hinv1 Hrest); lia|]);
    (inversion Hrest as [|? ? ? ? [a' Ha'] ?]; subst; [lia|done]).
Qed.
End Process.

Lemma exited_is_final code p :
  process_reaches (Exited code) p → p = Exited code.
Proof.
  unfold process_reaches. revert p. apply rtc_ind_r; [done|].
  intros p1 p2 _ [a Ha] ->. done.
Qed.

Lemma process_running_reachable n c s :
  process_reaches (Running n c init_state) (Running n c s) → reachable n c s.
Proof.
  intros Hs.
  assert (Hgen : ∀ p, process_reaches (Running n c init_state) p →
            ∀ s, p = Running n c s → reachable n c s);
    [|by eapply Hgen].
  clear s Hs. unfold process_reaches.
  apply (rtc_ind_r (λ p, ∀ s, p = Running n c s → reachable n c s)).
  - intros s [= <-]. apply rtc_refl.
  - intros p1 p2 _ [a Ha] IH s ->.
    destruct p1 as [code|n1 c1 s1]; [done|]. simpl in Ha.
    destruct (mainG s1); try done;
      (destruct (step_fn n1 c1 a s1) as [s2| |] eqn:Hs2; simplify_eq;
       eapply rtc_r; [by apply IH|by exists a]).
Qed.

(** What a step of the process is, in a run of a valid configuration:
    a step of a goroutine, or the exit with code 0 once [runLoadTest] has
    returned. *)
Lemma process_step_cases n c s a p' :
  inv n c s → process_step a (Running n c s) = Some p' →
  (∃ s', p' = Running n c s' ∧ step_fn n c a s = Next s'
         ∧ ∀ report, mainG s ≠ MReturned report)
  ∨ (p' = Exited 0
     ∧ ∃ report elapsed,
         mainG s = MReturned report
         ∧ aggregate n elapsed (received s) = Some report
         ∧ Z.of_nat (length (workers s)) = n
         ∧ Forall (λ w, ∃ r, w = WExit r) (workers s)
         ∧ Z.of_nat (length (received s)) = n).
Proof.
  intros Hinv. simpl.
  destruct (mainG s) as [i|i| |rep tt|rep] eqn:Hm;
    [..|intros [= <-]; right; split; [done|];
        destruct (inv_returned n c s rep Hinv Hm)
          as (Hlen & Hall & _ & Hrec & elapsed & Hagg); by eauto 10];
    (pose proof (inv_no_panic n c a s Hinv) as Hnp;
     destruct (step_fn n c a s) as [s1| |] eqn:Hs; intros; simplify_eq;
     left; exists s1; by repeat split).
Qed.

(** C9 (as stated, refuted).  A non-empty URL, [2^63 - 1] requests and a
    concurrency of 1 pass the three checks of [main], but
    [make(chan Result, totalRequests)] panics on that size and the program
    ends with exit code 2, not 0. *)
Lemma main_exit_codes_counterexample :
  "http://localhost:8080" ≠ EmptyString
  ∧ 0 < max_int ∧ 0 < 1 <= max_int
  ∧ main "http://localhost:8080" max_int 1 = Exited 2.
Proof. repeat split; (done || (vm_compute; congruence) || reflexivity). Qed.

(** C9 (amended).  On the parsed flags, [main] exits with code 1 when the
    URL is empty, [requests <= 0], [concurrency <= 0] or
    [concurrency > requests], and then no other state of the process
    exists: no worker is ever started.  Otherwise, when a channel of
    [requests] results can be made, the run starts and, whatever the
    replies of the server and the schedule: every step of the process is a
    step of a goroutine of [runLoadTest], or the exit with code 0 taken
    when [runLoadTest] has returned its report with all [requests]
    workers ended and all [requests] outcomes received; the process never
    exits with another code; it is never stuck before that exit; it can
    always reach it; and it reaches it within [8 * requests + 6] steps.
    When the channel cannot be made the program ends with exit code 2. *)
Theorem main_exit_codes (url : string) (requests concurrency : Z) :
  (url = EmptyString ∨ requests <= 0 ∨ concurrency <= 0
   ∨ concurrency > requests →
   main url requests concurrency = Exited 1
   ∧ ∀ p, process_reaches (main url requests concurrency) p →
          p = Exited 1 ∧ dispatched p = 0%nat)
  ∧ (url ≠ EmptyString → 0 < requests → 0 < concurrency <= requests →
     makechan_panics result_bytes requests = false →
     main url requests concurrency = Running requests concurrency init_state
     ∧ (∀ p, process_reaches (main url requests concurrency) p →
          (∀ code, p = Exited code → code = 0)
          ∧ (∀ a p', process_step a p = Some p' →
               ∃ s, p = Running requests concurrency s
                 ∧ reachable requests concurrency s
                 ∧ ((∃ s', p' = Running requests concurrency s'
                           ∧ step_fn requests concurrency a s = Next s'
                           ∧ ∀ report, mainG s ≠ MReturned report)
                    ∨ (p' = Exited 0
                       ∧ ∃ report elapsed,
                           mainG s = MReturned report
                           ∧ aggregate requests elapsed (received s)
                             = Some report
                           ∧ Z.of_nat (length (workers s)) = requests
                           ∧ Forall (λ w, ∃ r, w = WExit r) (workers s)
                           ∧ Z.of_nat (length (received s)) = requests)))
          ∧ ((∀ a, process_step a p = None) → p = Exited 0)
          ∧ process_reaches p (Exited 0))
     ∧ (∀ k p, nsteps process_steps k (main url requests concurrency) p →
          Z.of_nat k <= 8 * requests + 6))
  ∧ (url ≠ EmptyString → 0 < requests → 0 < concurrency <= requests →
     makechan_panics result_bytes requests = true →
     main url requests concurrency = Exited 2).
Proof.
  split; [|split].
  - intros Hbad. assert (Hm : main url requests concurrency = Exited 1).
    { unfold main. destruct (String.eqb_spec url EmptyString); [done|].
      destruct (Z.leb_spec requests 0); [done|].
      destruct (Z.leb_spec concurrency 0); [done|].
      destruct (Z.gtb_spec concurrency requests); [done|].
      exfalso. destruct Hbad as [?|[?|[?|?]]]; (done || lia). }
    rewrite Hm. split; [done|].
    intros p Hp. by rewrite (exited_is_final 1 p Hp).
  - intros Hurl Hn Hc Hmake.
    assert (Hm : main url requests concurrency
                 = Running requests concurrency init_state).
    { unfold main, start. destruct (String.eqb_spec url EmptyString); [done|].
      destruct (Z.leb_spec requests 0); [lia|].
      destruct (Z.leb_spec concurrency 0); [lia|].
      destruct (Z.gtb_spec concurrency requests); [lia|].
      rewrite Hmake. unfold makechan_panics.
      destruct (Z.ltb_spec concurrency 0); [lia|]. done. }
    rewrite Hm. split; [done|]. split.
    + intros p Hp.
      destruct (process_reaches_inv requests concurrency Hn Hc p Hp)
        as [->|(s & -> & Hinv)].
      * split; [by intros ? [= <-]|]. split; [done|].
        split; [done|]. apply rtc_refl.
      * split; [done|]. split; [|split; [|by apply process_exits]].
        -- intros a p' Ha. exists s. split; [done|].
           split; [by apply process_running_reachable|].
           by apply process_step_cases.
        -- intros Hstuck. exfalso.
           destruct (mainG s) eqn:Hmain;
             [..|by specialize (Hstuck (ActMain 0)); simpl in Hstuck;
                    rewrite Hmain in Hstuck];
             (destruct (inv_progress requests concurrency s) as (a & s1 & Ha);
              [lia|done|intros ?; by rewrite Hmain|];
              specialize (Hstuck a); simpl in Hstuck;
              by rewrite Hmain, Ha in Hstuck).
    + intros k p Hk.
      pose proof (process_fuel requests concurrency k init_state p) as Hf.
      change (fuel requests init_state)
        with (7 * (requests - 0) + requests + 3 + 0 + 2) in Hf.
      specialize (Hf (inv_init requests concurrency ltac:(lia) ltac:(lia)) Hk).
      lia.
  - intros Hurl Hn Hc Hmake.
    unfold main, start. destruct (String.eqb_spec url EmptyString); [done|].
    destruct (Z.leb_spec requests 0); [lia|].
    destruct (Z.leb_spec concurrency 0); [lia|].
    destruct (Z.gtb_spec concurrency requests); [lia|].
    by rewrite Hmake.
Qed.

Lemma main_exit_codes_witness :
  main "http://localhost:8080" 10 0 = Exited 1
  ∧ main "http://localhost:8080" 2 1 = Running 2 1 init_state
  ∧ process_reaches (main "http://localhost:8080" 2 1) (Exited 0)
  ∧ main "http://localhost:8080" max_int 1 = Exited 2.
Proof.
  destruct (main_exit_codes "http://localhost:8080" 10 0) as (Hbad & _ & _).
  destruct (main_exit_codes "http://localhost:8080" 2 1) as (_ & Hrun & _).
  destruct (main_exit_codes "http://localhost:8080" max_int 1)
    as (_ & _ & Hbig).
  destruct Hbad as [Hexit _]; [right; right; left; lia|].
  split; [exact Hexit|].
  destruct Hrun as (Hstart & Hall & _);
    [discriminate|lia|lia|reflexivity|].
  split; [exact Hstart|]. split.
  - apply (Hall (main "http://localhost:8080" 2 1)). apply rtc_refl.
  - apply Hbig; [discriminate|reflexivity|split; [reflexivity|discriminate]
                |reflexivity].
Defined.

(** ** The runs above, evaluated *)

Example aggregate_one_ok :
  aggregate 1 7 [mkResult 200 50000000 None]
  = Some (mkReport 1 7 {[200 := 1]} 1 0 50000000 50000000 50000000).
Proof. vm_compute. reflexivity. Qed.

Example aggregate_mixed :
  aggregate 5 9 [mkResult 200 1 None; mkResult 500 2 None; mkResult 200 3 None;
                 mkResult 500 4 None; mkResult 200 5 None]
  = Some (mkReport 5 9 {[200 := 3; 500 := 2]} 3 0 3 1 5).
Proof. vm_compute. reflexivity. Qed.

Example demo_mid_state :
  run 2 1 demo_admission init_state
  = Some (mkState (MFor 2) [WGet; WAcquire] None 2 1 [] false []).
Proof. vm_compute. reflexivity. Qed.

Example demo_process :
  process_run (demo_admission ++ demo_rest ++ [ActMain 0])
    (main "http://localhost:8080" 2 1)
  = Some (Exited 0)
  ∧ process_run [ActMain 0] (main "http://localhost:8080" 2 1)
    = Some (Running 2 1 (mkState (MGo 0) [] None 1 0 [] false [])).
Proof. vm_compute. split; reflexivity. Qed.

Example demo_final_state :
  run 2 1 (demo_admission ++ demo_rest) init_state
  = Some (mkState
            (MReturned (mkReport 2 1000 {[200 := 1]} 1 1 50 50 50))
            [WExit (mkResult 200 50 None);
             WExit (mkResult 0 7 (Some "connection refused"))]
            (Some CExit) 0 0 [] true
            [mkResult 200 50 None;
             mkResult 0 7 (Some "connection refused")]).
Proof. vm_compute. reflexivity. Qed.

(** * Further properties of the code *)

(** ** Order of arrival *)

Lemma count_perm p rs1 rs2 : rs1 ≡ₚ rs2 → count p rs1 = count p rs2.
Proof.
  induction 1 as [|r l1 l2 _ IH|r1 r2 l|l1 l2 l3 _ IH1 _ IH2]; simpl;
    [done|by rewrite IH|lia|congruence].
Qed.

Lemma completed_perm rs1 rs2 : rs1 ≡ₚ rs2 → completed rs1 ≡ₚ completed rs2.
Proof.
  induction 1 as [|r l1 l2 _ IH|r1 r2 l|l1 l2 l3 _ IH1 _ IH2]; simpl.
  - done.
  - destruct (is_error r); by rewrite IH.
  - destruct (is_error r1), (is_error r2); try done. apply perm_swap.
  - by etrans.
Qed.

Lemma sum_durations_perm rs1 rs2 :
  rs1 ≡ₚ rs2 → sum_durations rs1 = sum_durations rs2.
Proof.
  unfold sum_durations.
  induction 1 as [|r l1 l2 _ IH|r1 r2 l|l1 l2 l3 _ IH1 _ IH2]; simpl;
    [done|by rewrite IH|lia|congruence].
Qed.

Lemma smallest_perm rs1 rs2 : rs1 ≡ₚ rs2 → smallest rs1 = smallest rs2.
Proof.
  induction 1 as [|r l1 l2 _ IH|r1 r2 l|l1 l2 l3 _ IH1 _ IH2]; simpl.
  - done.
  - by rewrite IH.
  - destruct (smallest l); f_equal; lia.
  - congruence.
Qed.

Lemma largest_perm rs1 rs2 : rs1 ≡ₚ rs2 → largest rs1 = largest rs2.
Proof.
  induction 1 as [|r l1 l2 _ IH|r1 r2 l|l1 l2 l3 _ IH1 _ IH2]; simpl.
  - done.
  - by rewrite IH.
  - destruct (largest l); f_equal; lia.
  - congruence.
Qed.

Lemma collect_perm n rs1 rs2 : rs1 ≡ₚ rs2 → collect n rs1 = collect n rs2.
Proof.
  intros Hperm.
  pose proof (collect_closed_form n rs1) as H1.
  pose proof (collect_closed_form n rs2) as H2.
  destruct (collect n rs1) as [[a1 b1 m1 c1 d1 e1 f1 g1] t1].
  destruct (collect n rs2) as [[a2 b2 m2 c2 d2 e2 f2 g2] t2].
  simpl in *.
  destruct H1 as (-> & -> & -> & -> & -> & Hm1 & -> & -> & ->).
  destruct H2 as (-> & -> & -> & -> & -> & Hm2 & -> & -> & ->).
  pose proof (completed_perm _ _ Hperm) as Hc.
  rewrite (count_perm _ _ _ Hperm), (count_perm _ _ _ Hperm).
  rewrite (smallest_perm _ _ Hc), (largest_perm _ _ Hc),
    (sum_durations_perm _ _ Hc).
  assert (m1 = m2) as ->; [|done].
  apply map_eq. intros k. rewrite Hm1, Hm2.
  by rewrite (count_perm _ _ _ Hperm).
Qed.

(** X1.  The report does not depend on the order in which the outcomes
    are received: two lists that are permutations of each other give the
    same report (or the same panic). *)
Theorem aggregate_order_independent (n elapsed : Z) (rs1 rs2 : list Result) :
  rs1 ≡ₚ rs2 → aggregate n elapsed rs1 = aggregate n elapsed rs2.
Proof. intros Hperm. unfold aggregate. by rewrite (collect_perm n rs1 rs2). Qed.

Lemma aggregate_order_independent_witness :
  aggregate 3 9 [mkResult 200 5 None; mkResult 0 1 (Some "eof"); mkResult 404 8 None]
  = aggregate 3 9 [mkResult 404 8 None; mkResult 200 5 None; mkResult 0 1 (Some "eof")].
Proof.
  apply aggregate_order_independent.
  symmetry. apply (Permutation_cons_append [_; _] _).
Defined.

(** ** Minimum against maximum *)

Lemma smallest_le_largest rs :
  rs ≠ [] → ∃ m M, smallest rs = Some m ∧ largest rs = Some M ∧ m <= M.
Proof.
  intros Hne. destruct (sum_between rs Hne) as (m & M & Hm & HM & Hlo & Hhi).
  exists m, M. repeat split; try done.
  destruct rs; [done|]. simpl length in *. nia.
Qed.

(** X2.  In the report returned, [MinTime <= MaxTime] holds exactly when
    some outcome has no error: with no such outcome [MinTime] is still one
    hour and [MaxTime] still zero. *)
Theorem min_exceeds_max_iff_no_sample (n elapsed : Z) (rs : list Result) :
  ∃ report, aggregate n elapsed rs = Some report
    ∧ (MinTime report <= MaxTime report ↔ completed rs ≠ [])
    ∧ (completed rs = [] → MinTime report = Hour ∧ MaxTime report = 0).
Proof.
  rewrite aggregate_fields. eexists. split; [done|]. simpl.
  pose proof (collect_closed_form n rs) as Hcf.
  destruct (collect n rs) as [rep tt]. simpl.
  destruct Hcf as (_ & _ & _ & _ & _ & _ & -> & -> & _).
  split; [split|].
  - intros Hle Hnil. rewrite Hnil in Hle. simpl in Hle. unfold Hour in Hle. lia.
  - intros Hne.
    destruct (smallest_le_largest _ Hne) as (m & M & -> & -> & Hle). simpl. lia.
  - intros ->. simpl. split; reflexivity.
Qed.

(** X3.  [MaxTime] starts at zero and is never negative, [MinTime] never
    exceeds one hour, and when no outcome without error has a negative
    duration [MaxTime] is the largest of their durations (zero when there
    is none). *)
Theorem max_time_is_largest (n elapsed : Z) (rs : list Result) :
  ∃ report, aggregate n elapsed rs = Some report
    ∧ 0 <= MaxTime report
    ∧ MinTime report <= Hour
    ∧ ((∀ r, r ∈ completed rs → 0 <= Duration r) →
       MaxTime report = default 0 (largest (completed rs))).
Proof.
  rewrite aggregate_fields. eexists. split; [done|]. simpl.
  pose proof (collect_closed_form n rs) as Hcf.
  destruct (collect n rs) as [rep tt]. simpl.
  destruct Hcf as (_ & _ & _ & _ & _ & _ & -> & -> & _).
  split; [lia|]. split; [lia|].
  intros Hall.
  assert (Hge : ∀ l, (∀ r, r ∈ l → 0 <= Duration r) →
                     0 <= default 0 (largest l)).
  { clear. induction l as [|r l IH]; intros Hall; simpl; [lia|].
    assert (0 <= Duration r) by (apply Hall; left).
    assert (0 <= default 0 (largest l))
      by (apply IH; intros; apply Hall; by right).
    destruct (largest l); simpl in *; lia. }
  specialize (Hge _ Hall). lia.
Qed.

Lemma max_time_is_largest_witness :
  ∃ report,
    aggregate 3 9 [mkResult 200 5 None; mkResult 0 70 (Some "eof"); mkResult 404 8 None]
    = Some report
    ∧ MaxTime report = 8.
Proof.
  destruct (max_time_is_largest 3 9
      [mkResult 200 5 None; mkResult 0 70 (Some "eof"); mkResult 404 8 None])
    as (report & Hrep & _ & _ & Hmax).
  exists report. split; [exact Hrep|]. apply Hmax.
  intros r Hr. apply list_elem_of_In in Hr. simpl in Hr.
  destruct Hr as [<-|[<-|[]]]; simpl; lia.
Defined.

(** ** The status-code table *)

Lemma count_pos_iff p rs : 0 < count p rs ↔ ∃ r, r ∈ rs ∧ p r = true.
Proof.
  induction rs as [|r rs IH]; simpl.
  - split; [lia|]. intros (r & Hr & _). by apply elem_of_nil in Hr.
  - pose proof (count_bounds p rs). split.
    + intros Hpos. destruct (p r) eqn:Hp.
      * exists r. split; [left|done].
      * destruct IH as [IH _]. destruct IH as (x & Hx & Hpx); [lia|].
        exists x. split; [by right|done].
    + intros (x & [->|Hx]%elem_of_cons & Hpx).
      * rewrite Hpx. lia.
      * destruct IH as [_ IH]. specialize (IH (ex_intro _ x (conj Hx Hpx))).
        destruct (p r); lia.
Qed.

(** X4.  [StatusCodes] has an entry for a code exactly when some outcome
    without error carries that code (an outcome with an error adds no
    entry, not even for its zero status code), every count stored is
    positive, and the count stored for 200 (zero when absent) is
    [SuccessfulRequests]. *)
Theorem status_codes_table (n elapsed : Z) (rs : list Result) :
  Z.of_nat (length rs) <= max_int →
  ∃ report, aggregate n elapsed rs = Some report
    ∧ (∀ c, is_Some (StatusCodes report !! c)
            ↔ ∃ r, r ∈ rs ∧ Error r = None ∧ StatusCode r = c)
    ∧ (∀ c k, StatusCodes report !! c = Some k → 0 < k)
    ∧ default 0 (StatusCodes report !! StatusOK) = SuccessfulRequests report.
Proof.
  intros Hlen. rewrite aggregate_fields. eexists. split; [done|]. simpl.
  pose proof (collect_closed_form n rs) as Hcf.
  destruct (collect n rs) as [rep tt]. simpl.
  destruct Hcf as (_ & _ & _ & _ & Hs & Hm & _).
  assert (Hlook : ∀ c, StatusCodes rep !! c
            = if count (has_code c) rs =? 0 then None
              else Some (count (has_code c) rs)).
  { intros c. rewrite Hm. by rewrite count_in_int. }
  split; [|split].
  - intros c. rewrite Hlook.
    pose proof (count_bounds (has_code c) rs) as Hb.
    pose proof (count_pos_iff (has_code c) rs) as Hpos.
    assert (Hcode : ∀ r, has_code c r = true ↔ Error r = None ∧ StatusCode r = c).
    { intros r. unfold has_code, is_error.
      destruct (Error r); simpl; [split; [done|by intros [? _]]|].
      rewrite Z.eqb_eq. tauto. }
    destruct (Z.eqb_spec (count (has_code c) rs) 0) as [Hz|Hnz].
    + split; [by intros []|]. intros (r & Hr & Herr).
      destruct Hpos as [_ Hpos].
      assert (0 < count (has_code c) rs); [|lia].
      apply Hpos. exists r. split; [done|]. by apply Hcode.
    + split; [|by eauto]. intros _.
      destruct Hpos as [Hpos _]. destruct Hpos as (r & Hr & Hp); [lia|].
      exists r. split; [done|]. by apply Hcode.
  - intros c k. rewrite Hlook.
    pose proof (count_bounds (has_code c) rs) as Hb.
    destruct (Z.eqb_spec (count (has_code c) rs) 0); [done|].
    intros [= <-]. lia.
  - rewrite Hlook, Hs, count_in_int by done.
    by destruct (Z.eqb_spec (count (has_code StatusOK) rs) 0) as [->|].
Qed.

Lemma status_codes_table_witness :
  ∃ report,
    aggregate 3 9 [mkResult 200 5 None; mkResult 0 1 (Some "eof"); mkResult 404 8 None]
    = Some report
    ∧ StatusCodes report !! 0 = None
    ∧ is_Some (StatusCodes report !! 404).
Proof.
  destruct (status_codes_table 3 9
      [mkResult 200 5 None; mkResult 0 1 (Some "eof"); mkResult 404 8 None])
    as (report & Hrep & Hkeys & _).
  { vm_compute. discriminate. }
  exists report. split; [exact Hrep|]. split.
  - destruct (StatusCodes report !! 0) as [k|] eqn:Hk; [|reflexivity].
    destruct (proj1 (Hkeys 0) (ex_intro _ k Hk)) as (r & Hr & Herr & Hcode).
    apply list_elem_of_In in Hr. simpl in Hr.
    destruct Hr as [<-|[<-|[<-|[]]]]; discriminate.
  - apply Hkeys. exists (mkResult 404 8 None).
    split; [|split; reflexivity]. apply list_elem_of_In. simpl. tauto.
Defined.

(** ** Durations bounded by a common limit *)

Lemma sum_durations_bounded D rs :
  (∀ r, r ∈ rs → 0 <= Duration r <= D) →
  0 <= sum_durations rs <= Z.of_nat (length rs) * D.
Proof.
  unfold sum_durations. induction rs as [|r rs IH]; intros Hall; simpl; [lia|].
  assert (0 <= Duration r <= D) by (apply Hall; left).
  destruct IH as [? ?]; [intros; apply Hall; by right|]. lia.
Qed.

(** X5.  When every outcome without error has a duration between zero
    and a limit with [totalRequests * limit] within the 64-bit range,
    [totalTime] cannot wrap: the average reported lies between zero and the
    limit, and with at least one such outcome it is the exact truncated
    mean and lies between [MinTime] and [MaxTime]. *)
Theorem bounded_durations_do_not_overflow (n elapsed limit : Z) (rs : list Result) :
  Z.of_nat (length rs) = n → n <= max_int →
  0 <= limit → n * limit <= max_int →
  (∀ r, r ∈ completed rs → 0 <= Duration r <= limit) →
  ∃ report, aggregate n elapsed rs = Some report
    ∧ 0 <= AverageTime report <= limit
    ∧ (completed rs ≠ [] →
       AverageTime report
       = Z.quot (sum_durations (completed rs)) (Z.of_nat (length (completed rs)))
       ∧ MinTime report <= AverageTime report <= MaxTime report).
Proof.
  intros Hlen Hmax Hlim0 Hlim Hall.
  destruct (aggregate_average n elapsed rs Hlen Hmax)
    as (rep & Hrep & Hmin & Hmx & Havg).
  exists rep. split; [done|].
  pose proof (sum_durations_bounded limit _ Hall) as [Hlo Hhi].
  pose proof (count_split_error rs) as Hsplit.
  pose proof (count_bounds is_error rs) as Hb.
  rewrite <- completed_length in Hsplit.
  assert (Hk : Z.of_nat (length (completed rs)) <= n) by lia.
  destruct (completed rs) as [|r0 rest] eqn:Hcomp.
  { simpl in *. rewrite Havg. split; [lia|done]. }
  rewrite <- Hcomp in *.
  assert (Hpos : 0 < Z.of_nat (length (completed rs))) by (rewrite Hcomp; simpl; lia).
  assert (Hin : in_int (sum_durations (completed rs))).
  { unfold in_int, min_int, max_int in *. nia. }
  rewrite wrap64_id in Havg by done.
  destruct (Z.gtb_spec (Z.of_nat (length (completed rs))) 0); [|lia].
  assert (Hne : completed rs ≠ []) by (by rewrite Hcomp).
  destruct (sum_between _ Hne) as (m & M & Hm & HM & Hlo' & Hhi').
  assert (0 <= sum_durations (completed rs) ÷ Z.of_nat (length (completed rs)))
    by (by apply Z.quot_pos).
  assert (sum_durations (completed rs) ÷ Z.of_nat (length (completed rs)) <= limit)
    by (by apply Z.quot_le_upper_bound).
  assert (m <= sum_durations (completed rs) ÷ Z.of_nat (length (completed rs)))
    by (by apply Z.quot_le_lower_bound).
  assert (sum_durations (completed rs) ÷ Z.of_nat (length (completed rs)) <= M)
    by (by apply Z.quot_le_upper_bound).
  rewrite Havg, Hmin, Hmx, Hm, HM. simpl. split; [lia|]. intros _. split; [done|lia].
Qed.

Lemma bounded_durations_do_not_overflow_witness :
  ∃ report,
    aggregate 3 9 [mkResult 200 Hour None; mkResult 0 1 (Some "eof");
                   mkResult 404 (Hour - 1) None]
    = Some report
    ∧ 0 <= AverageTime report <= Hour.
Proof.
  destruct (bounded_durations_do_not_overflow 3 9 Hour
      [mkResult 200 Hour None; mkResult 0 1 (Some "eof");
       mkResult 404 (Hour - 1) None])
    as (report & Hrep & Havg & _).
  - reflexivity.
  - vm_compute. discriminate.
  - vm_compute. discriminate.
  - vm_compute. discriminate.
  - intros r Hr. apply list_elem_of_In in Hr. simpl in Hr.
    destruct Hr as [<-|[<-|[]]]; vm_compute; split; discriminate.
  - exists report. split; [exact Hrep|exact Havg].
Defined.

(** ** What [printReport] lists *)

Lemma rows_total_perm rows1 rows2 :
  rows1 ≡ₚ rows2 → rows_total rows1 = rows_total rows2.
Proof.
  unfold rows_total.
  induction 1 as [|r l1 l2 _ IH|r1 r2 l|l1 l2 l3 _ IH1 _ IH2]; simpl;
    [done|by rewrite IH|lia|congruence].
Qed.

Lemma rows_total_insert (m : gmap Z Z) k v :
  rows_total (map_to_list (<[k := v]> m))
  = rows_total (map_to_list m) - default 0 (m !! k) + v.
Proof.
  destruct (m !! k) as [old|] eqn:Hk; simpl.
  - rewrite <- (insert_delete_eq m k v).
    rewrite (rows_total_perm _ _ (map_to_list_insert (delete k m) k v
                                    (lookup_delete_eq m k))).
    rewrite <- (insert_id m k old Hk) at 2.
    rewrite <- (insert_delete_eq m k old).
    rewrite (rows_total_perm _ _ (map_to_list_insert (delete k m) k old
                                    (lookup_delete_eq m k))).
    unfold rows_total. simpl. lia.
  - rewrite (rows_total_perm _ _ (map_to_list_insert m k v Hk)).
    unfold rows_total. simpl. lia.
Qed.

Lemma rows_total_collect n rs :
  Z.of_nat (length rs) <= max_int →
  rows_total (map_to_list (StatusCodes (collect n rs).1))
  = count (λ r, negb (is_error r)) rs.
Proof.
  induction rs as [|r rs IH] using rev_ind; intros Hlen.
  { done. }
  rewrite length_app in Hlen. simpl in Hlen.
  rewrite collect_snoc, count_app. simpl.
  pose proof (collect_closed_form n rs) as Hcf.
  destruct (collect n rs) as [rep tt]. simpl in IH.
  destruct Hcf as (_ & _ & _ & _ & _ & Hcodes & _).
  unfold range_body.
  destruct (is_error r) eqn:Er.
  - apply is_error_true in Er as [e He]. rewrite He. simpl.
    rewrite IH by lia. lia.
  - rewrite (is_error_false _ Er). simpl.
    unfold map_incr. rewrite rows_total_insert, IH by lia.
    rewrite Hcodes.
    pose proof (count_bounds (has_code (StatusCode r)) rs) as Hb.
    assert (Hw : wrap64 (count (has_code (StatusCode r)) rs)
                 = count (has_code (StatusCode r)) rs)
      by (apply count_in_int; lia).
    destruct (Z.eqb_spec (count (has_code (StatusCode r)) rs) 0) as [E0|_]; simpl.
    + rewrite wrap64_id; [lia|].
      unfold in_int, min_int, max_int. lia.
    + rewrite Hw. rewrite wrap64_id; [lia|].
      unfold in_int, min_int, max_int in *. lia.
Qed.

(** X12.  With one outcome per request, whatever order the loop of
    [printReport] takes over [StatusCodes], no code is listed twice, a
    code is listed with a count exactly when that count is the positive
    number of outcomes without error carrying the code, and the counts
    listed add up to [TotalRequests - FailedRequests]. *)
Theorem status_distribution_rows (n elapsed : Z) (rs : list Result)
    (rows : list (Z * Z)) :
  Z.of_nat (length rs) = n → n <= max_int →
  ∃ report, aggregate n elapsed rs = Some report
    ∧ (rows ≡ₚ map_to_list (StatusCodes report) →
       NoDup rows.*1
       ∧ (∀ c k, (c, k) ∈ rows ↔ k = count (has_code c) rs ∧ 0 < k)
       ∧ rows_total rows = TotalRequests report - FailedRequests report).
Proof.
  intros Hlen Hmax. rewrite aggregate_fields. eexists. split; [done|]. simpl.
  intros Hrows. split; [|split].
  - rewrite Hrows. apply NoDup_fst_map_to_list.
  - intros c k. rewrite Hrows, elem_of_map_to_list.
    pose proof (collect_closed_form n rs) as Hcf.
    destruct (collect n rs) as [rep tt]. simpl.
    destruct Hcf as (_ & _ & _ & _ & _ & -> & _).
    rewrite count_in_int by lia.
    pose proof (count_bounds (has_code c) rs) as Hb.
    destruct (Z.eqb_spec (count (has_code c) rs) 0).
    + split; [done|lia].
    + split; [intros [= <-]; lia|by intros [-> _]].
  - rewrite (rows_total_perm _ _ Hrows), rows_total_collect by lia.
    pose proof (collect_closed_form n rs) as Hcf.
    destruct (collect n rs) as [rep tt]. simpl.
    destruct Hcf as (_ & _ & _ & -> & _).
    rewrite count_in_int by lia.
    pose proof (count_split_error rs). lia.
Qed.

(** ** Closing the channel *)

(** X6.  Whenever [resultChan] is closed, the wait group is at zero, every
    slot of [semaphore] has been given back, all [totalRequests] workers
    have been spawned and have ended, and every outcome they built has
    been received or is still buffered: the close never comes before a
    send. *)
Theorem channel_closed_after_all_workers (n c : Z) (s : state) :
  0 <= n → 0 <= c → reachable n c s → closed s = true →
  wg s = 0
  ∧ semaphore s = 0
  ∧ Z.of_nat (length (workers s)) = n
  ∧ Forall (λ w, ∃ r, w = WExit r) (workers s)
  ∧ outcomes s ≡ₚ received s ++ resultChan s.
Proof.
  intros Hn Hc Hreach. pose proof (reachable_inv n c s Hn Hc Hreach) as Hinv.
  destruct s as [m ws cl w sm ch cd rc]. open_inv Hinv.
  unfold outcomes. simpl. intros ->.
  destruct cl as [[]|]; try done; try (by destruct Hcl).
  destruct Hcl as [_ ->].
  pose proof (tally_nonneg running ws).
  destruct (all_exited ws) as (Hall & Hsame & Hsent);
    [destruct m; lia|].
  repeat split; try done.
  - rewrite Hsem. clear -Hall.
    induction Hall as [|x ws [r ->] _ IH]; [done|].
    change (tally holds_slot (WExit r :: ws)) with (0 + tally holds_slot ws).
    lia.
  - destruct m; intuition congruence.
  - by rewrite <- Hsame.
Qed.

Lemma channel_closed_after_all_workers_witness :
  wg demo_final = 0
  ∧ Forall (λ w, ∃ r, w = WExit r) (workers demo_final).
Proof.
  destruct (channel_closed_after_all_workers 2 1 demo_final)
    as (Hwg & _ & _ & Hall & _).
  - lia.
  - lia.
  - apply (run_reachable 2 1 (demo_admission ++ demo_rest)).
    vm_compute. reflexivity.
  - reflexivity.
  - split; [exact Hwg|exact Hall].
Defined.

(** ** Sending a result *)

Lemma sent_below_workers ws i w :
  ws !! i = Some w → sent_of w = [] →
  (length (ws ≫= sent_of) < length ws)%nat.
Proof.
  revert i. induction ws as [|x ws IH]; intros [|i] Hi Hw; simplify_eq/=.
  - rewrite Hw. simpl.
    pose proof (bind_length_le sent_of ws sent_of_short). 
    change (list_bind _ _ sent_of ws) with (ws ≫= sent_of). lia.
  - rewrite length_app. pose proof (sent_of_short x). specialize (IH i Hi Hw).
    change (list_bind _ _ sent_of ws) with (ws ≫= sent_of). lia.
Qed.

(** X7.  A worker that has built its result never waits on the send:
    the channel is still open and its buffer, of capacity [totalRequests],
    has room, so the step is taken; and in the state the send leaves, the
    deferred [<-semaphore] of that worker is enabled too (a token is
    there), so the slot is released without waiting for the collecting
    goroutine. *)
Theorem send_never_blocks (n c : Z) (s : state) (i : nat) (result : Result)
    (reply : http_reply) (duration : Z) :
  0 <= n → 0 <= c → reachable n c s →
  workers s !! i = Some (WSend result) →
  let s' := with_workers (<[i := WRelease result]> (workers s))
              (with_resultChan (resultChan s ++ [result]) s) in
  closed s = false
  ∧ Z.of_nat (length (resultChan s)) < n
  ∧ worker_step n c i reply duration s = Next s'
  ∧ 0 < semaphore s'
  ∧ worker_step n c i reply duration s'
    = Next (with_workers (<[i := WDone result]> (workers s'))
              (with_semaphore (semaphore s - 1) s')).
Proof.
  intros Hn Hc Hreach. pose proof (reachable_inv n c s Hn Hc Hreach) as Hinv.
  destruct s as [m ws cl w sm ch cd rc]. open_inv Hinv. intros Hi.
  pose proof (tally_lookup running ws i _ Hi eq_refl) as Hrun.
  pose proof (tally_lookup holds_slot ws i _ Hi eq_refl) as Hhold.
  pose proof (sent_below_workers ws i _ Hi eq_refl) as Hsent.
  pose proof (lookup_lt_Some _ _ _ Hi) as Hlt.
  apply Permutation_length in Hchan. rewrite length_app in Hchan.
  assert (Hopen : cd = false).
  { destruct cd; [|done]. exfalso.
    destruct cl as [[]|]; try done; destruct Hcl as [? Hz]; try done.
    destruct m; lia. }
  assert (Hroom : Z.of_nat (length ch) < n) by (destruct m; lia).
  split; [done|]. split; [done|]. split; [|split; [lia|]].
  - unfold worker_step; cbn [workers semaphore closed resultChan wg].
    rewrite Hi, Hopen. by destruct (Z.ltb_spec (Z.of_nat (length ch)) n); [|lia].
  - unfold worker_step. simpl.
    rewrite list_lookup_insert_eq by done. simpl.
    by destruct (Z.ltb_spec 0 sm); [|lia].
Qed.

(** ** Degenerate arguments *)

Lemma no_slot_all_waiting n s :
  0 <= n → reachable n 0 s → Forall (λ w, w = WAcquire) (workers s).
Proof.
  intros Hn. unfold reachable. revert s. apply rtc_ind_r; [constructor|].
  intros s s' Hreach [a Ha] Hall.
  pose proof (reachable_inv n 0 s Hn ltac:(lia) Hreach) as Hinv.
  destruct s as [m ws cl w sm ch cd rc]. open_inv Hinv.
  destruct a as [elapsed|i reply duration|]; cbn [step_fn] in Ha.
  - unfold main_step in Ha; cbn [mainG resultChan closed workers] in Ha.
    destruct m as [k|k| |rep tt|rep]; try done.
    + destruct (k <? n); simplify_eq/=; done.
    + simplify_eq/=. apply Forall_app. split; [done|]. by constructor.
    + simplify_eq/=; done.
    + destruct ch as [|r rest].
      * destruct cd; [|done]. rewrite finalize_fields in Ha. by simplify_eq/=.
      * destruct (range_body (rep, tt) r). by simplify_eq/=.
  - unfold worker_step in Ha; cbn [workers semaphore closed resultChan wg] in Ha.
    destruct (ws !! i) as [x|] eqn:Hi; [|done].
    rewrite Forall_lookup in Hall. rewrite (Hall i x Hi) in Ha.
    pose proof (tally_nonneg holds_slot ws).
    by destruct (Z.ltb_spec sm 0); [lia|].
  - unfold closer_step in Ha; cbn [closer wg closed] in Ha.
    destruct cl as [[]|]; try done.
    + destruct (w =? 0); by simplify_eq/=.
    + destruct cd; by simplify_eq/=.
Qed.

Lemma all_waiting_unfinished ws :
  Forall (λ w, w = WAcquire) ws → tally running ws = Z.of_nat (length ws).
Proof.
  induction 1 as [|w ws -> _ IH]; [done|].
  change (tally running (WAcquire :: ws)) with (1 + tally running ws).
  rewrite IH. simpl length. lia.
Qed.

(** X8.  [runLoadTest] called with [concurrency = 0] and
    [totalRequests > 0] never returns: in every state it can reach all the
    workers spawned are still asking for a slot and cannot move, nothing
    has been received, [resultChan] is open and the function has not
    returned; as no run has more than [8 * totalRequests + 5] steps, every
    run ends with all goroutines blocked. *)
Theorem zero_concurrency_never_returns (n : Z) :
  0 < n →
  (∀ s, reachable n 0 s →
     Forall (λ w, w = WAcquire) (workers s)
     ∧ (∀ i reply duration, worker_step n 0 i reply duration s = Blocked)
     ∧ received s = [] ∧ closed s = false
     ∧ ∀ report, mainG s ≠ MReturned report)
  ∧ (∀ k s, nsteps (step n 0) k init_state s → Z.of_nat k <= 8 * n + 5).
Proof.
  intros Hn. split.
  - intros s Hreach.
    pose proof (no_slot_all_waiting n s ltac:(lia) Hreach) as Hall.
    pose proof (all_waiting_unfinished _ Hall) as Hrun.
    pose proof (reachable_inv n 0 s ltac:(lia) ltac:(lia) Hreach) as Hinv.
    destruct s as [m ws cl w sm ch cd rc]. open_inv Hinv.
    assert (Hsent : ws ≫= sent_of = []).
    { clear -Hall. induction Hall as [|x ws -> _ IH]; [done|]. simpl. done. }
    rewrite Hsent in Hchan. symmetry in Hchan.
    apply Permutation_nil_r, app_eq_nil in Hchan as [-> ->].
    assert (Hopen : cd = false).
    { destruct cd; [|done]. exfalso.
      destruct cl as [[]|]; try done; destruct Hcl as [? Hz]; try done.
      destruct m; destruct_and?; try congruence; lia. }
    split; [done|]. split; [|split; [done|split; [done|]]].
    + intros i reply duration.
      unfold worker_step; cbn [workers semaphore closed resultChan wg].
      destruct (ws !! i) as [x|] eqn:Hi; [|done].
      rewrite Forall_lookup in Hall. rewrite (Hall i x Hi).
      pose proof (tally_nonneg holds_slot ws).
      by destruct (Z.ltb_spec sm 0); [lia|].
    + intros report ->. destruct Hmain as (_ & -> & _).
      destruct Hcl as [? _]. congruence.
  - intros k s Hk.
    destruct (nsteps_fuel n 0 k init_state s) as [Hs Hle];
      [apply inv_init; lia|done|].
    pose proof (fuel_nonneg n 0 s Hs).
    change (fuel n init_state) with (7 * (n - 0) + n + 3 + 0 + 2) in Hle. lia.
Qed.

(** X9.  [runLoadTest] called with [totalRequests = 0] spawns no
    worker and returns: the five steps of the main goroutine and the closer
    give the report as it was created ([MinTime] one hour, every counter
    zero, no division) with the elapsed time, and no run returns another
    report. *)
Theorem zero_requests_returns_initial_report (c elapsed : Z) :
  0 <= c →
  run 0 c [ActMain 0; ActMain 0; ActCloser; ActCloser; ActMain elapsed] init_state
  = Some (mkState (MReturned (mkReport 0 elapsed ∅ 0 0 0 Hour 0))
            [] (Some CExit) 0 0 [] true [])
  ∧ ∀ s report,
      reachable 0 c s → mainG s = MReturned report →
      workers s = []
      ∧ ∃ elapsed', report = mkReport 0 elapsed' ∅ 0 0 0 Hour 0.
Proof.
  intros Hc. split; [done|].
  intros s report Hreach Hm.
  pose proof (reachable_inv 0 c s ltac:(lia) Hc Hreach) as Hinv.
  destruct (inv_returned 0 c s report Hinv Hm)
    as (Hlen & _ & _ & Hrec & elapsed' & Hagg).
  split; [destruct (workers s); [done|simpl in Hlen; lia]|].
  exists elapsed'. destruct (received s); [|simpl in Hrec; lia].
  by injection Hagg as <-.
Qed.

(** ** The schedule does not show in the report *)

(** X10.  For a valid configuration, the report of a finished run is
    the one the reduction gives on the outcomes of the workers taken in
    spawn order, with the elapsed time read at the end: the interleaving of
    the goroutines does not show in it. *)
Theorem report_independent_of_schedule (n c : Z) (s : state) :
  0 < n → 0 < c <= n → reachable n c s → terminal n c s →
  ∃ report elapsed,
    mainG s = MReturned report
    ∧ aggregate n elapsed (outcomes s) = Some report.
Proof.
  intros Hn Hc Hreach Hterm.
  pose proof (reachable_inv n c s ltac:(lia) ltac:(lia) Hreach) as Hinv.
  destruct (terminal_returned n c s) as [report Hm]; [lia|done..|].
  destruct (inv_returned n c s report Hinv Hm)
    as (_ & _ & Hperm & _ & elapsed & Hagg).
  exists report, elapsed. split; [done|].
  unfold aggregate in *. by rewrite <- (collect_perm n _ _ Hperm).
Qed.

(** ** Flags left at their defaults *)

(** X11.  With a non-empty URL and the other flags left at their
    defaults the run starts with 100 requests and a concurrency of 10;
    giving only [-requests r] is rejected exactly when [r < 10] (the
    default concurrency then exceeds it); giving only [-concurrency k] is
    rejected exactly when [k <= 0] or [k > 100]; without a URL every
    combination is rejected. *)
Theorem default_flags (url : string) :
  url ≠ EmptyString →
  main_flags (mkFlags (Some url) None None) = Running 100 10 init_state
  ∧ (∀ r, main_flags (mkFlags (Some url) (Some r) None) = Exited 1 ↔ r < 10)
  ∧ (∀ k, main_flags (mkFlags (Some url) None (Some k)) = Exited 1
          ↔ k <= 0 ∨ 100 < k)
  ∧ (∀ r k, main_flags (mkFlags None r k) = Exited 1).
Proof.
  intros Hurl. unfold main_flags, main. simpl.
  destruct (String.eqb_spec url EmptyString) as [|_]; [done|].
  split; [done|]. split; [|split; [|done]].
  - intros r.
    destruct (Z.leb_spec r 0); [split; [lia|done]|].
    destruct (Z.gtb_spec 10 r); [split; [lia|done]|]. simpl.
    destruct (start r 10); split; (done || lia).
  - intros k.
    destruct (Z.leb_spec k 0); [split; [lia|done]|].
    destruct (Z.gtb_spec k 100); [split; [lia|done]|]. simpl.
    destruct (start 100 k); split; (done || lia).
Qed.

(** ** The extra properties on the runs above *)

Lemma min_exceeds_max_iff_no_sample_witness :
  ∃ report,
    aggregate 2 9 [mkResult 0 4 (Some "eof"); mkResult 0 5 (Some "eof")]
    = Some report
    ∧ ¬ (MinTime report <= MaxTime report)
    ∧ MinTime report = Hour ∧ MaxTime report = 0.
Proof.
  destruct (min_exceeds_max_iff_no_sample 2 9
      [mkResult 0 4 (Some "eof"); mkResult 0 5 (Some "eof")])
    as (report & Hrep & Hiff & Hvalues).
  exists report. split; [exact Hrep|]. split.
  - intros Hle. apply (proj1 Hiff Hle). reflexivity.
  - apply Hvalues. reflexivity.
Defined.

Lemma status_distribution_rows_witness :
  rows_total [(200, 2); (404, 1)] = 3 - 0.
Proof.
  destruct (status_distribution_rows 3 9
      [mkResult 200 5 None; mkResult 404 8 None; mkResult 200 7 None]
      [(200, 2); (404, 1)])
    as (report & Hrep & Hrows).
  - reflexivity.
  - vm_compute. discriminate.
  - assert (Hcomp : aggregate 3 9
        [mkResult 200 5 None; mkResult 404 8 None; mkResult 200 7 None]
        = Some (mkReport 3 9 {[200 := 2; 404 := 1]} 2 0 6 5 8))
      by (vm_compute; reflexivity).
    rewrite Hcomp in Hrep. injection Hrep as <-.
    destruct Hrows as (_ & _ & Htotal); [|exact Htotal].
    simpl StatusCodes. vm_compute map_to_list. apply perm_swap.
Defined.

Lemma send_never_blocks_witness :
  closed demo_send = false
  ∧ Z.of_nat (length (resultChan demo_send)) < 2
  ∧ 0 < semaphore demo_send.
Proof.
  destruct (send_never_blocks 2 1 demo_send 0 (mkResult 200 50 None)
              (Responded 0) 0) as (Hopen & Hroom & _ & Hslot & _).
  - lia.
  - lia.
  - apply (run_reachable 2 1
             (demo_admission ++ [ActWorker 0 (Responded 200) 50])).
    vm_compute. reflexivity.
  - reflexivity.
  - split; [exact Hopen|split; [exact Hroom|exact Hslot]].
Defined.

Lemma zero_concurrency_never_returns_witness :
  worker_step 2 0 0 (Responded 200) 1 demo_stuck = Blocked
  ∧ worker_step 2 0 1 (Responded 200) 1 demo_stuck = Blocked
  ∧ closed demo_stuck = false.
Proof.
  destruct (zero_concurrency_never_returns 2) as [Hstuck _]; [lia|].
  destruct (Hstuck demo_stuck) as (_ & Hblocked & _ & Hopen & _).
  - apply (run_reachable 2 0
             [ActMain 0; ActMain 0; ActMain 0; ActMain 0; ActMain 0; ActMain 0]).
    vm_compute. reflexivity.
  - split; [apply Hblocked|split; [apply Hblocked|exact Hopen]].
Defined.

Lemma zero_requests_returns_initial_report_witness :
  run 0 4 [ActMain 0; ActMain 0; ActCloser; ActCloser; ActMain 12] init_state
  = Some (mkState (MReturned (mkReport 0 12 ∅ 0 0 0 Hour 0))
            [] (Some CExit) 0 0 [] true []).
Proof.
  apply (zero_requests_returns_initial_report 4 12). lia.
Defined.

Lemma report_independent_of_schedule_witness :
  ∃ report elapsed,
    mainG demo_final = MReturned report
    ∧ aggregate 2 elapsed (outcomes demo_final) = Some report.
Proof.
  assert (Hreach : reachable 2 1 demo_final).
  { apply (run_reachable 2 1 (demo_admission ++ demo_rest)).
    vm_compute. reflexivity. }
  apply (report_independent_of_schedule 2 1 demo_final);
    [lia|lia|exact Hreach|].
  eapply returned_terminal.
  - apply reachable_inv; [lia|lia|exact Hreach].
  - vm_compute. reflexivity.
Defined.

Lemma default_flags_witness :
  main_flags (mkFlags (Some "http://localhost:8080") (Some 5) None) = Exited 1
  ∧ main_flags (mkFlags (Some "http://localhost:8080") None None)
    = Running 100 10 init_state.
Proof.
  destruct (default_flags "http://localhost:8080") as (Hrun & Hreq & _);
    [discriminate|].
  split; [apply Hreq; lia|exact Hrun].
Defined.

Example demo_stuck_state :
  run 2 0 [ActMain 0; ActMain 0; ActMain 0; ActMain 0; ActMain 0; ActMain 0]
    init_state
  = Some (mkState (MRange (init_report 2) 0) [WAcquire; WAcquire]
            (Some CWait) 2 0 [] false [])
  ∧ main_step 2 0 demo_stuck = Blocked
  ∧ closer_step demo_stuck = Blocked.
Proof. vm_compute. repeat split. Qed.
